(** * CategoricalImputer (sklearn_pandas/categorical_imputer.py)

    A shallow embedding of the categorical missing-value imputer and the
    properties its specification states about it.

    Modelling choices, each made where the definition stands:
    - a scalar of a one-dimensional object array is [None], the float
      not-a-number, a Python [str] (a string of one-byte characters) or a
      Python [int];
    - the attributes of [self] are a record that [fit] threads through a
      state-and-exception monad, [fill_] being absent ([None]) until [fit]
      assigns it;
    - arrays live in a store indexed by locations, so that [X.copy()] and the
      in-place assignment [X[mask] = fill_] of [transform] are observable;
    - [random.choice] draws from an explicit source: the natural number the
      generator returns for this call. *)

From Stdlib Require Import ZArith String Ascii List Bool Lia Sorted.
From stdpp Require Import gmap strings list sorting.

Open Scope string_scope.
Open Scope list_scope.
Open Scope nat_scope.

(** ** Scalars *)

Inductive value : Type :=
  | VNone               (* None *)
  | VNaN                (* float('nan'), np.nan *)
  | VStr (s : string)   (* str *)
  | VInt (z : Z).       (* int *)

#[global] Instance value_eq_dec : EqDecision value.
Proof. solve_decision. Defined.

(** [pd.isnull] on one scalar: true for [None] and for the float
    not-a-number, false for every string and every integer. *)
Definition isnull (v : value) : bool :=
  match v with
  | VNone | VNaN => true
  | VStr _ | VInt _ => false
  end.

(** Python's [a == b] on scalars: not-a-number equals nothing, not even
    itself; values of different types are different. *)
Definition py_eq (a b : value) : bool :=
  match a, b with
  | VNone, VNone => true
  | VStr s, VStr t => String.eqb s t
  | VInt x, VInt y => Z.eqb x y
  | _, _ => false
  end.

Definition is_None (v : value) : bool :=
  match v with VNone => true | _ => false end.

(** [isinstance(value, float) and np.isnan(value)] *)
Definition is_float_nan (v : value) : bool :=
  match v with VNaN => true | _ => false end.

(** [pd.isnull(X)] and [X == value], element by element. *)
Definition pd_isnull (X : list value) : list bool := map isnull X.
Definition np_equal (X : list value) (v : value) : list bool :=
  map (fun x => py_eq x v) X.

(** ** The missing-value mask *)

Definition _get_mask (X : list value) (value : value) : list bool :=
  if py_eq value (VStr "NaN") || is_None value || is_float_nan value
  then pd_isnull X
  else np_equal X value.

(** [~mask] and [X[mask]] (boolean indexing keeps the entries whose mask bit
    is set, in their order). *)
Definition invert (mask : list bool) : list bool := map negb mask.

Fixpoint bool_index {A : Type} (X : list A) (mask : list bool) : list A :=
  match X, mask with
  | x :: X', b :: mask' =>
      if b then x :: bool_index X' mask' else bool_index X' mask'
  | _, _ => []
  end.

(** [X[mask] = v]: assignment of one scalar at every masked position. *)
Fixpoint setitem_mask {A : Type} (X : list A) (mask : list bool) (v : A) : list A :=
  match X, mask with
  | x :: X', b :: mask' => (if b then v else x) :: setitem_mask X' mask' v
  | _, _ => X
  end.

(** ** [pd.Series(X).mode()]

    pandas counts the non-null values in a table keyed in order of first
    appearance, keeps the keys whose count is the largest, and hands them to
    [np.sort]; when the keys cannot be compared with each other (a [str] and
    an [int]) the sort raises [TypeError], pandas warns, and the keys stay
    in table order. *)

Definition dropna (xs : list value) : list value :=
  filter (fun x => isnull x = false) xs.

(** The table's keys are strings and integers, on which Python's [==] is
    equality. *)
Definition count_of (v : value) (xs : list value) : nat :=
  length (filter (fun x => x = v) xs).

Fixpoint unique (xs : list value) : list value :=
  match xs with
  | [] => []
  | x :: xs' => x :: filter (fun y => y <> x) (unique xs')
  end.

Definition value_counts (xs : list value) : list (value * nat) :=
  let obs := dropna xs in
  map (fun k => (k, count_of k obs)) (unique obs).

Definition max_count (counts : list nat) : nat := foldr Nat.max 0 counts.

Definition htable_mode (xs : list value) : list value :=
  let vc := value_counts xs in
  let m := max_count (map snd vc) in
  map fst (filter (fun kc => snd kc = m) vc).

(** Python 3's [a <= b]: defined between two strings (code point order) and
    between two integers. The order below is extended to a total one (an
    integer before a string, null values first) so that the sort is a total
    function; [comparable] tells when Python defines it. *)
Definition value_leb (a b : value) : bool :=
  match a, b with
  | VStr s, VStr t => String.leb s t
  | VInt x, VInt y => Z.leb x y
  | VNone, _ => true
  | VNaN, VNone => false
  | VNaN, _ => true
  | VInt _, (VNone | VNaN) => false
  | VInt _, VStr _ => true
  | VStr _, _ => false
  end.

Definition is_str (v : value) : bool := match v with VStr _ => true | _ => false end.
Definition is_int (v : value) : bool := match v with VInt _ => true | _ => false end.

Definition comparable (xs : list value) : bool :=
  forallb is_str xs || forallb is_int xs.

Fixpoint insert_sorted (v : value) (xs : list value) : list value :=
  match xs with
  | [] => [v]
  | x :: xs' => if value_leb v x then v :: xs else x :: insert_sorted v xs'
  end.

Definition sorted_values (xs : list value) : list value :=
  foldr insert_sorted [] xs.

(** [np.sort]: [None] stands for the [TypeError] that pandas catches. *)
Definition np_sort (xs : list value) : option (list value) :=
  if comparable xs then Some (sorted_values xs) else None.

Definition Series_mode (xs : list value) : list value :=
  let result := htable_mode xs in
  match np_sort result with
  | Some sorted => sorted
  | None => result
  end.

(** ** Exceptions and the state-and-exception monad *)

Inductive exn : Type :=
  | ValueError (msg : string)
  | NotFittedError
  | TypeError
  | IndexError
  | KeyError
  | UnboundLocalError.

Inductive result (A : Type) : Type :=
  | Ok (a : A)
  | Raise (e : exn).
Arguments Ok {A} a.
Arguments Raise {A} e.

Definition is_ok {A : Type} (r : result A) : bool :=
  match r with Ok _ => true | Raise _ => false end.

(** A computation over a state [S]: it returns or raises, and in both cases
    leaves the state as it stands at that moment (an exception undoes
    nothing). *)
Definition ST (S A : Type) : Type := S -> result A * S.

#[global] Instance ST_ret {S : Type} : MRet (ST S) :=
  fun A a s => (Ok a, s).
#[global] Instance ST_bind {S : Type} : MBind (ST S) :=
  fun A B f m s =>
    match m s with
    | (Ok a, s') => f a s'
    | (Raise e, s') => (Raise e, s')
    end.

Definition raise {S A : Type} (e : exn) : ST S A := fun s => (Raise e, s).
Definition get {S : Type} : ST S S := fun s => (Ok s, s).
Definition lift {S A : Type} (r : result A) : ST S A := fun s => (r, s).

(** ** The estimator *)

Record CategoricalImputer : Type := mkImputer {
  missing_values : value;
  strategy : string;
  fill_value : value;
  tie_breaking : string;
  copy : bool;
  fill_ : option value   (* absent until [fit] assigns it *)
}.

Definition strategies : list string := ["constant"; "most_frequent"].
Definition tie_breaking_strategies : list string := ["error"; "first"; "random"].

Definition py_in (s : string) (l : list string) : bool := existsb (String.eqb s) l.

(** ['Strategy {0} not in {1}'.format(s, l)] *)
Definition repr_list (l : list string) : string :=
  ("[" ++ String.concat ", " (map (fun s => "'" ++ s ++ "'") l) ++ "]")%string.
Definition not_in_msg (s : string) (l : list string) : string :=
  ("Strategy " ++ s ++ " not in " ++ repr_list l)%string.

Definition __init__ (missing_values : value) (strategy : string)
    (fill_value : value) (tie_breaking : string) (copy : bool)
    : result CategoricalImputer :=
  if negb (py_in strategy strategies) then
    Raise (ValueError (not_in_msg strategy strategies))
  else if negb (py_in tie_breaking tie_breaking_strategies) then
    Raise (ValueError (not_in_msg tie_breaking tie_breaking_strategies))
  else
    Ok (mkImputer missing_values strategy fill_value tie_breaking copy None).

(** [self.fill_ = v] *)
Definition with_fill_ (self : CategoricalImputer) (v : value) : CategoricalImputer :=
  mkImputer (missing_values self) (strategy self) (fill_value self)
            (tie_breaking self) (copy self) (Some v).

Definition set_fill_ (v : value) : ST CategoricalImputer unit :=
  fun self => (Ok tt, with_fill_ self v).

(** [random.choice(seq)] is [seq[randbelow(len(seq))]]: on a string it is one
    of its characters, on the empty string it raises [IndexError], and on a
    value without a length ([None], a float, an integer) [TypeError]. [r] is
    what the generator yields for this call, reduced below the length. *)
Definition random_choice (seq : value) (r : nat) : result value :=
  match seq with
  | VStr s =>
      if Nat.eqb (String.length s) 0 then Raise IndexError
      else Ok (VStr (String.substring (r mod String.length s) 1 s))
  | VNone | VNaN | VInt _ => Raise TypeError
  end.

(** [modes[0]] *)
Definition item0 (modes : list value) : result value :=
  match modes with
  | v :: _ => Ok v
  | [] => Raise KeyError
  end.

Definition empty_msg : string := "Data is empty or all values are null".
Definition tie_msg : string := "No value is repeated more than once in the column".

Definition fit (X : list value) (r : nat) : ST CategoricalImputer unit :=
  self ← get;
  let mask := _get_mask X (missing_values self) in
  let X := bool_index X (invert mask) in
  modes ← (if String.eqb (strategy self) "most_frequent" then mret (Series_mode X)
           else if String.eqb (strategy self) "constant" then mret [fill_value self]
           else raise UnboundLocalError);
  if Nat.eqb (length modes) 0 then
    raise (ValueError empty_msg)
  else if Nat.ltb 1 (length modes) && String.eqb (tie_breaking self) "error" then
    raise (ValueError tie_msg)
  else if String.eqb (tie_breaking self) "random" then
    m0 ← lift (item0 modes);
    v ← lift (random_choice m0 r);
    set_fill_ v
  else
    m0 ← lift (item0 modes);
    set_fill_ m0.

(** ** Arrays in a store, and [transform] *)

Definition loc : Type := positive.
Abbreviation store := (gmap loc (list value)).

Definition read (X : loc) : ST store (list value) :=
  fun h => match h !! X with
           | Some xs => (Ok xs, h)
           | None => (Raise KeyError, h)
           end.

Definition write (X : loc) (xs : list value) : ST store unit :=
  fun h => (Ok tt, <[X := xs]> h).

(** A new array, at a location the store does not use yet. *)
Definition alloc (xs : list value) : ST store loc :=
  fun h => let X' := fresh (dom h) in (Ok X', <[X' := xs]> h).

(** [X.copy()]: a new array with the same contents. *)
Definition array_copy (X : loc) : ST store loc :=
  xs ← read X;
  alloc xs.

(** [check_is_fitted(self, 'fill_')] *)
Definition check_is_fitted {S : Type} (self : CategoricalImputer) : ST S value :=
  match fill_ self with
  | Some v => mret v
  | None => raise NotFittedError
  end.

Definition transform (self : CategoricalImputer) (X : loc) : ST store loc :=
  fill ← check_is_fitted self;
  X ← (if copy self then array_copy X else mret X);
  xs ← read X;
  let mask := _get_mask xs (missing_values self) in
  write X (setitem_mask xs mask fill);;
  mret X.   (* np.asarray(X): the array itself, not a copy *)

(** ** What the specification calls the mode

    [most_frequent v xs]: [v] is an observed (non-null) value of [xs] and no
    observed value occurs more often. [retained] is the training data after
    the masked entries are discarded. *)

Definition retained (self : CategoricalImputer) (X : list value) : list value :=
  bool_index X (invert (_get_mask X (missing_values self))).

Definition most_frequent (v : value) (xs : list value) : Prop :=
  isnull v = false ∧ v ∈ xs ∧
  ∀ w, isnull w = false → count_of w xs ≤ count_of v xs.

Definition tied (xs : list value) : Prop :=
  ∃ v w, v ≠ w ∧ most_frequent v xs ∧ most_frequent w xs.

Definition unique_mode (v : value) (xs : list value) : Prop :=
  most_frequent v xs ∧ ∀ w, most_frequent w xs → w = v.

(** The mask bit at position [i] (false outside the array). *)
Definition masked_at (mask : list bool) (i : nat) : bool :=
  default false (mask !! i).

Definition value_le (a b : value) : Prop := value_leb a b = true.

(** The four branches of [fit] after [modes] is bound, as one value. *)
Definition fit_outcome (self : CategoricalImputer) (modes : list value) (r : nat)
    : result unit * CategoricalImputer :=
  match modes with
  | [] => (Raise (ValueError empty_msg), self)
  | m0 :: rest =>
      if Nat.ltb 1 (length modes) && String.eqb (tie_breaking self) "error" then
        (Raise (ValueError tie_msg), self)
      else if String.eqb (tie_breaking self) "random" then
        match random_choice m0 r with
        | Ok v => (Ok tt, with_fill_ self v)
        | Raise e => (Raise e, self)
        end
      else (Ok tt, with_fill_ self m0)
  end.

(** An estimator as [__init__] leaves it when the two checks pass: the five
    options stored, no [fill_]. *)
Definition imputer (mv : value) (s : string) (fv : value) (tb : string) (cp : bool)
    : CategoricalImputer :=
  mkImputer mv s fv tb cp None.

(** The mask bit [_get_mask] computes for one entry: both [pd.isnull] and
    [==] work entry by entry (lemma [get_mask_entries]). *)
Definition entry_masked (value x : value) : bool :=
  if py_eq value (VStr "NaN") || is_None value || is_float_nan value
  then isnull x
  else py_eq x value.

(** ** The values [fit] learns from, stated without the mask

    An entry is counted when it is neither [None] nor not-a-number and,
    unless the sentinel is the token ["NaN"], differs from the sentinel; a
    string entry ["NaN"] is counted like any other string. [most_common] and
    [has_tie] speak of plain frequency in a list. *)

Definition counted (mv x : value) : Prop :=
  isnull x = false ∧ (mv = VStr "NaN" ∨ x ≠ mv).

#[global] Instance counted_dec (mv x : value) : Decision (counted mv x).
Proof. unfold counted. apply _. Defined.

Definition observed (mv : value) (X : list value) : list value :=
  filter (counted mv) X.

Definition most_common (v : value) (xs : list value) : Prop :=
  v ∈ xs ∧ ∀ w, count_of w xs ≤ count_of v xs.

Definition has_tie (xs : list value) : Prop :=
  ∃ v w, v ≠ w ∧ most_common v xs ∧ most_common w xs.


(** ** The mask as the specification words it

    Section 4.1 of the specification: under the canonical marker an entry is
    missing when it is null, not-a-number, absent or the string ["NaN"];
    under any other sentinel, when it equals the sentinel. [spec_retained]
    keeps the other entries, [None] included under a custom sentinel. These
    two definitions follow the specification, not the code; they serve to
    state where the two part. *)

Definition spec_mask_entry (mv x : value) : bool :=
  if py_eq mv (VStr "NaN") || is_None mv || is_float_nan mv
  then isnull x || py_eq x (VStr "NaN")
  else py_eq x mv.

Definition spec_retained (mv : value) (X : list value) : list value :=
  filter (λ x, spec_mask_entry mv x = false) X.

(** ** Call histories

    An estimator and the arrays it is handed, driven by a sequence of calls.
    [run] reports whether some [fit] of the sequence returned. *)

Inductive call : Type :=
  | CallFit (X : loc) (r : nat)
  | CallTransform (X : loc).

Record world : Type := mkWorld {
  estimator : CategoricalImputer;
  arrays : store
}.

Definition is_fitted (self : CategoricalImputer) : bool :=
  match fill_ self with Some _ => true | None => false end.

Definition step (c : call) (w : world) : bool * world :=
  match c with
  | CallFit X r =>
      match arrays w !! X with
      | Some xs =>
          let '(res, self') := fit xs r (estimator w) in
          (is_ok res, mkWorld self' (arrays w))
      | None => (false, w)
      end
  | CallTransform X =>
      let '(_, h') := transform (estimator w) X (arrays w) in
      (false, mkWorld (estimator w) h')
  end.

Fixpoint run (cs : list call) (w : world) : bool * world :=
  match cs with
  | [] => (false, w)
  | c :: cs' =>
      let '(b, w') := step c w in
      let '(b', w'') := run cs' w' in
      (b || b', w'')
  end.

(** * Lemmas *)

Section ListFacts.

Lemma elem_of_unique (x : value) (xs : list value) : x ∈ unique xs ↔ x ∈ xs.
Proof.
  induction xs as [|y xs IH]; simpl; [done|].
  rewrite !elem_of_cons, list_elem_of_filter, IH.
  destruct (decide (x = y)); tauto.
Qed.

Lemma NoDup_unique (xs : list value) : NoDup (unique xs).
Proof.
  induction xs as [|y xs IH]; simpl; [constructor|].
  constructor.
  - rewrite list_elem_of_filter. intros [Hne _]. by apply Hne.
  - by apply NoDup_filter.
Qed.

Lemma elem_of_dropna (x : value) (xs : list value) :
  x ∈ dropna xs ↔ isnull x = false ∧ x ∈ xs.
Proof. unfold dropna. by rewrite list_elem_of_filter. Qed.

Lemma count_of_dropna (v : value) (xs : list value) :
  isnull v = false → count_of v (dropna xs) = count_of v xs.
Proof.
  intros Hv. unfold count_of, dropna.
  induction xs as [|x xs IH]; simpl; [done|].
  rewrite (filter_cons (λ y, y = v) x xs).
  rewrite (filter_cons (λ y, isnull y = false) x xs).
  destruct (decide (isnull x = false)) as [Hx|Hx].
  - rewrite (filter_cons (λ y, y = v) x). destruct (decide (x = v)); simpl; lia.
  - destruct (decide (x = v)) as [->|]; [congruence|done].
Qed.

Lemma count_of_pos (v : value) (xs : list value) : v ∈ xs ↔ 0 < count_of v xs.
Proof.
  unfold count_of. split.
  - intros Hin. assert (v ∈ filter (λ x, x = v) xs) as H
      by (by apply list_elem_of_filter).
    destruct (filter (λ x, x = v) xs); [by apply elem_of_nil in H|simpl; lia].
  - intros Hpos. destruct (filter (λ x, x = v) xs) as [|y l] eqn:E; [simpl in Hpos; lia|].
    assert (y ∈ filter (λ x, x = v) xs) as H by (rewrite E; left).
    apply list_elem_of_filter in H as [-> ?]. done.
Qed.

Lemma max_count_ge (n : nat) (l : list nat) : n ∈ l → n ≤ max_count l.
Proof.
  induction l as [|m l IH]; simpl; [by intros ?%elem_of_nil|].
  rewrite elem_of_cons. intros [->|H]; [lia|]. specialize (IH H). lia.
Qed.

Lemma max_count_elem (l : list nat) : l ≠ [] → max_count l ∈ l.
Proof.
  induction l as [|m l IH]; [done|]. intros _. simpl.
  destruct l as [|m' l'].
  - simpl. rewrite Nat.max_0_r. left.
  - destruct (Nat.max_spec m (max_count (m' :: l'))) as [[_ ->]|[_ ->]].
    + right. by apply IH.
    + left.
Qed.

End ListFacts.

(** ** The mode computation returns exactly the most frequent values *)

Section ModeFacts.

Lemma keyed_filter (f : value → nat) (m : nat) (l : list value) :
  map fst (filter (λ kc, snd kc = m) (map (λ k, (k, f k)) l))
  = filter (λ k, f k = m) l.
Proof.
  induction l as [|k l IH]; simpl; [done|].
  rewrite (filter_cons (λ kc : value * nat, snd kc = m)).
  rewrite (filter_cons (λ k, f k = m)). simpl.
  destruct (decide (f k = m)); simpl; by rewrite IH.
Qed.

Lemma htable_mode_filter (xs : list value) :
  htable_mode xs
  = filter (λ k, count_of k (dropna xs)
                 = max_count (map (λ k, count_of k (dropna xs)) (unique (dropna xs))))
           (unique (dropna xs)).
Proof.
  unfold htable_mode, value_counts. cbv zeta.
  rewrite keyed_filter. by rewrite map_map.
Qed.

Lemma elem_of_htable_mode (v : value) (xs : list value) :
  v ∈ htable_mode xs ↔ most_frequent v xs.
Proof.
  rewrite htable_mode_filter, list_elem_of_filter, elem_of_unique, elem_of_dropna.
  set (obs := dropna xs).
  set (counts := map (λ k, count_of k obs) (unique obs)).
  split.
  - intros (Hmax & Hv & Hin). repeat split; [done..|].
    intros w Hw. rewrite <- (count_of_dropna v xs Hv). fold obs. rewrite Hmax.
    destruct (decide (w ∈ xs)) as [Hwin|Hwin].
    + rewrite <- (count_of_dropna w xs Hw). fold obs.
      apply max_count_ge. unfold counts. apply list_elem_of_fmap.
      exists w. split; [done|]. apply elem_of_unique, elem_of_dropna. done.
    + destruct (count_of w xs) eqn:E; [lia|].
      exfalso. apply Hwin, count_of_pos. lia.
  - intros (Hv & Hin & Hmax). split; [|done].
    assert (v ∈ unique obs) as Hk by (by apply elem_of_unique, elem_of_dropna).
    assert (count_of v obs ∈ counts) as Hc
      by (apply list_elem_of_fmap; by exists v).
    apply Nat.le_antisymm; [by apply max_count_ge|].
    assert (counts ≠ []) as Hne by (intros E; rewrite E in Hc; by apply elem_of_nil in Hc).
    apply max_count_elem in Hne. unfold counts at 2 in Hne.
    apply list_elem_of_fmap in Hne as (k & -> & Hkin).
    apply elem_of_unique, elem_of_dropna in Hkin as [Hk0 _].
    unfold obs. rewrite !count_of_dropna by done. by apply Hmax.
Qed.

Lemma NoDup_htable_mode (xs : list value) : NoDup (htable_mode xs).
Proof. rewrite htable_mode_filter. apply NoDup_filter, NoDup_unique. Qed.

Lemma insert_sorted_perm (v : value) (xs : list value) :
  insert_sorted v xs ≡ₚ v :: xs.
Proof.
  induction xs as [|x xs IH]; simpl; [done|].
  destruct (value_leb v x); [done|]. rewrite IH. apply Permutation_swap.
Qed.

Lemma sorted_values_perm (xs : list value) : sorted_values xs ≡ₚ xs.
Proof.
  induction xs as [|x xs IH]; simpl; [done|].
  rewrite insert_sorted_perm. by rewrite IH.
Qed.

Lemma Series_mode_perm (xs : list value) : Series_mode xs ≡ₚ htable_mode xs.
Proof.
  unfold Series_mode, np_sort. cbv zeta.
  destruct (comparable (htable_mode xs)); [apply sorted_values_perm|done].
Qed.

Lemma elem_of_Series_mode (v : value) (xs : list value) :
  v ∈ Series_mode xs ↔ most_frequent v xs.
Proof. rewrite Series_mode_perm. apply elem_of_htable_mode. Qed.

Lemma NoDup_Series_mode (xs : list value) : NoDup (Series_mode xs).
Proof. rewrite Series_mode_perm. apply NoDup_htable_mode. Qed.

Lemma Series_mode_tied (xs : list value) : tied xs → 2 ≤ length (Series_mode xs).
Proof.
  intros (v & w & Hne & Hv & Hw).
  apply elem_of_Series_mode in Hv, Hw.
  destruct (Series_mode xs) as [|a [|b l]]; simpl; [| |lia].
  - by apply elem_of_nil in Hv.
  - apply list_elem_of_singleton in Hv, Hw. congruence.
Qed.

Lemma tied_Series_mode (xs : list value) : 2 ≤ length (Series_mode xs) → tied xs.
Proof.
  pose proof (NoDup_Series_mode xs) as Hnd.
  pose proof (elem_of_Series_mode) as Hin.
  destruct (Series_mode xs) as [|a [|b l]] eqn:E; simpl; [lia..|]. intros _.
  exists a, b. split.
  - intros ->. apply NoDup_cons in Hnd as [Hnd _]. apply Hnd. left.
  - split; apply (Hin _ xs); rewrite E; [left|right; left].
Qed.

Lemma Series_mode_unique (v : value) (xs : list value) :
  unique_mode v xs → Series_mode xs = [v].
Proof.
  intros [Hv Huniq].
  pose proof (NoDup_Series_mode xs) as Hnd.
  assert (∀ w, w ∈ Series_mode xs → w = v) as Hall
    by (intros w Hw; by apply Huniq, elem_of_Series_mode).
  apply elem_of_Series_mode in Hv.
  destruct (Series_mode xs) as [|a [|b l]].
  - by apply elem_of_nil in Hv.
  - f_equal. apply Hall. left.
  - exfalso. apply NoDup_cons in Hnd as [Hnd _]. apply Hnd.
    rewrite (Hall a) by left. rewrite (Hall b) by (right; left). left.
Qed.

Lemma unique_mode_Series_mode (v : value) (xs : list value) :
  Series_mode xs = [v] → unique_mode v xs.
Proof.
  intros E. split.
  - apply elem_of_Series_mode. rewrite E. left.
  - intros w Hw. apply elem_of_Series_mode in Hw. rewrite E in Hw.
    by apply list_elem_of_singleton in Hw.
Qed.

Lemma Series_mode_nil (xs : list value) :
  Forall (λ x, isnull x = true) xs → Series_mode xs = [].
Proof.
  intros Hall. destruct (Series_mode xs) as [|a l] eqn:E; [done|].
  assert (a ∈ Series_mode xs) as Ha by (rewrite E; left).
  apply elem_of_Series_mode in Ha as (Hnn & Hin & _).
  rewrite Forall_forall in Hall. specialize (Hall a Hin). congruence.
Qed.

End ModeFacts.

(** ** The sort puts the modes in ascending order *)

Section SortFacts.

Lemma ascii_compare_lt_trans (a b c : ascii) :
  Ascii.compare a b = Lt → Ascii.compare b c = Lt → Ascii.compare a c = Lt.
Proof.
  unfold Ascii.compare. rewrite !N.compare_lt_iff. lia.
Qed.

Lemma ascii_compare_refl (a : ascii) : Ascii.compare a a = Eq.
Proof. unfold Ascii.compare. apply N.compare_refl. Qed.

Lemma string_compare_refl (s : string) : String.compare s s = Eq.
Proof. induction s as [|a s IH]; simpl; [done|]. by rewrite ascii_compare_refl. Qed.

Lemma string_compare_lt_trans (s t u : string) :
  String.compare s t = Lt → String.compare t u = Lt → String.compare s u = Lt.
Proof.
  revert t u. induction s as [|a s IH]; intros [|b t] [|c u]; simpl; try done.
  destruct (Ascii.compare a b) eqn:Eab; try done;
    destruct (Ascii.compare b c) eqn:Ebc; try done.
  - apply Ascii.compare_eq_iff in Eab, Ebc. subst.
    rewrite ascii_compare_refl. apply IH.
  - apply Ascii.compare_eq_iff in Eab. subst. by rewrite Ebc.
  - apply Ascii.compare_eq_iff in Ebc. subst. by rewrite Eab.
  - by rewrite (ascii_compare_lt_trans a b c).
Qed.

Lemma string_leb_trans (s t u : string) :
  String.leb s t = true → String.leb t u = true → String.leb s u = true.
Proof.
  unfold String.leb.
  destruct (String.compare s t) eqn:Est; try done;
    destruct (String.compare t u) eqn:Etu; try done; intros _ _.
  - apply String.compare_eq_iff in Est, Etu. subst.
    by rewrite string_compare_refl.
  - apply String.compare_eq_iff in Est. subst. by rewrite Etu.
  - apply String.compare_eq_iff in Etu. subst. by rewrite Est.
  - by rewrite (string_compare_lt_trans s t u).
Qed.

Lemma value_leb_trans (a b c : value) :
  value_leb a b = true → value_leb b c = true → value_leb a c = true.
Proof.
  destruct a, b, c; simpl; try done.
  - apply string_leb_trans.
  - rewrite !Z.leb_le. lia.
Qed.

Lemma value_leb_total (a b : value) :
  value_leb a b = true ∨ value_leb b a = true.
Proof.
  destruct a, b; simpl; auto.
  - apply String.leb_total.
  - rewrite !Z.leb_le. lia.
Qed.

Lemma insert_sorted_ascending (v : value) (xs : list value) :
  StronglySorted value_le xs → StronglySorted value_le (insert_sorted v xs).
Proof.
  induction 1 as [|x xs Hs IH Hx]; simpl.
  - repeat constructor.
  - destruct (value_leb v x) eqn:E.
    + constructor; [by constructor|]. constructor; [done|].
      eapply Forall_impl; [exact Hx|]. intros y Hy.
      by apply (value_leb_trans v x y).
    + constructor; [done|]. rewrite (insert_sorted_perm v xs).
      constructor; [|done]. destruct (value_leb_total v x); [congruence|done].
Qed.

Lemma sorted_values_ascending (xs : list value) :
  StronglySorted value_le (sorted_values xs).
Proof.
  induction xs as [|x xs IH]; simpl; [constructor|].
  by apply insert_sorted_ascending.
Qed.

(** When [np.sort] succeeds, the modes come out in ascending order, so the
    first of them is the least. *)
Lemma Series_mode_ascending (xs : list value) :
  comparable (htable_mode xs) = true → StronglySorted value_le (Series_mode xs).
Proof.
  intros Hc. unfold Series_mode, np_sort. cbv zeta. rewrite Hc.
  apply sorted_values_ascending.
Qed.


End SortFacts.

(** ** The mask, boolean indexing and masked assignment *)

Section MaskFacts.

Lemma length_get_mask (X : list value) (v : value) : length (_get_mask X v) = length X.
Proof.
  unfold _get_mask, pd_isnull, np_equal.
  destruct (py_eq v (VStr "NaN") || is_None v || is_float_nan v); apply length_map.
Qed.

Lemma bool_index_none {A : Type} (X : list A) (mask : list bool) :
  Forall (λ b, b = true) mask → bool_index X (invert mask) = [].
Proof.
  intros Hall. revert X. induction Hall as [|b mask -> _ IH]; intros [|x X]; simpl; auto.
Qed.

Lemma length_setitem_mask {A : Type} (X : list A) (mask : list bool) (v : A) :
  length (setitem_mask X mask v) = length X.
Proof.
  revert mask. induction X as [|x X IH]; intros [|b mask]; simpl; auto.
Qed.

Lemma lookup_setitem_mask {A : Type} (X : list A) (mask : list bool) (v : A) (i : nat) :
  setitem_mask X mask v !! i
  = (λ x, if masked_at mask i then v else x) <$> X !! i.
Proof.
  revert mask i. induction X as [|x X IH]; intros [|b mask] i; simpl; [done..| |].
  - by destruct ((x :: X) !! i).
  - destruct i as [|i]; [done|]. exact (IH mask i).
Qed.

End MaskFacts.

(** ** What [fit] returns, by the modes it computed *)

Section FitFacts.

Lemma fit_most_frequent (self : CategoricalImputer) (X : list value) (r : nat) :
  strategy self = "most_frequent" →
  fit X r self = fit_outcome self (Series_mode (retained self X)) r.
Proof.
  intros Hs. unfold fit, retained, fit_outcome, mbind, ST_bind, get. rewrite Hs. simpl.
  destruct (Series_mode _) as [|m0 rest]; [done|]. simpl.
  destruct (_ && _); [done|].
  destruct (String.eqb (tie_breaking self) "random"); [|done].
  unfold lift. by destruct (random_choice m0 r).
Qed.

Lemma fit_constant (self : CategoricalImputer) (X : list value) (r : nat) :
  strategy self = "constant" →
  fit X r self = fit_outcome self [fill_value self] r.
Proof.
  intros Hs. unfold fit, fit_outcome, mbind, ST_bind, get. rewrite Hs. simpl.
  destruct (String.eqb (tie_breaking self) "random"); [|done].
  unfold lift. by destruct (random_choice (fill_value self) r).
Qed.

Lemma fit_other_strategy (self : CategoricalImputer) (X : list value) (r : nat) :
  strategy self ≠ "most_frequent" → strategy self ≠ "constant" →
  fit X r self = (Raise UnboundLocalError, self).
Proof.
  intros H1 H2. unfold fit, mbind, ST_bind, get.
  apply String.eqb_neq in H1, H2. by rewrite H1, H2.
Qed.

(** A call that raises assigns nothing; a call that returns has assigned
    [fill_] and nothing else. *)
Lemma fit_outcome_frame (self : CategoricalImputer) (modes : list value) (r : nat) :
  match fit_outcome self modes r with
  | (Ok _, self') => ∃ v, self' = with_fill_ self v
  | (Raise _, self') => self' = self
  end.
Proof.
  unfold fit_outcome. destruct modes as [|m0 rest]; [done|].
  destruct (_ && _); [done|].
  destruct (String.eqb _ "random"); [|by eexists].
  destruct (random_choice m0 r); [by eexists|done].
Qed.

Lemma fit_frame (self : CategoricalImputer) (X : list value) (r : nat) :
  match fit X r self with
  | (Ok _, self') => ∃ v, self' = with_fill_ self v
  | (Raise _, self') => self' = self
  end.
Proof.
  destruct (decide (strategy self = "most_frequent")) as [H1|H1].
  { rewrite fit_most_frequent by done. apply fit_outcome_frame. }
  destruct (decide (strategy self = "constant")) as [H2|H2].
  { rewrite fit_constant by done. apply fit_outcome_frame. }
  by rewrite fit_other_strategy.
Qed.

(** Outside the random policy a unique mode becomes [fill_]. *)
Lemma fit_unique_mode (self : CategoricalImputer) (X : list value) (r : nat) (v : value) :
  strategy self = "most_frequent" → tie_breaking self ≠ "random" →
  unique_mode v (retained self X) →
  fit X r self = (Ok tt, with_fill_ self v).
Proof.
  intros Hs Ht Hu. rewrite fit_most_frequent by done.
  rewrite (Series_mode_unique v) by done. unfold fit_outcome. simpl.
  apply String.eqb_neq in Ht. by rewrite Ht.
Qed.

(** Under the random policy [fill_] is drawn from the characters of the
    unique mode. *)
Lemma fit_unique_mode_random (self : CategoricalImputer) (X : list value) (r : nat)
    (v : value) :
  strategy self = "most_frequent" → tie_breaking self = "random" →
  unique_mode v (retained self X) →
  fit X r self = match random_choice v r with
                 | Ok c => (Ok tt, with_fill_ self c)
                 | Raise e => (Raise e, self)
                 end.
Proof.
  intros Hs Ht Hu. rewrite fit_most_frequent by done.
  rewrite (Series_mode_unique v) by done. unfold fit_outcome. simpl.
  by rewrite Ht.
Qed.

(** Outside the random policy the constant strategy stores [fill_value]. *)
Lemma fit_constant_fill_value (self : CategoricalImputer) (X : list value) (r : nat) :
  strategy self = "constant" → tie_breaking self ≠ "random" →
  fit X r self = (Ok tt, with_fill_ self (fill_value self)).
Proof.
  intros Hs Ht. rewrite fit_constant by done. unfold fit_outcome. simpl.
  apply String.eqb_neq in Ht. by rewrite Ht.
Qed.

End FitFacts.

(** ** What [transform] returns and writes *)

Section TransformFacts.

Lemma transform_not_fitted (self : CategoricalImputer) (X : loc) (h : store) :
  fill_ self = None → transform self X h = (Raise NotFittedError, h).
Proof. intros Hf. unfold transform, check_is_fitted. by rewrite Hf. Qed.

Lemma transform_in_place (self : CategoricalImputer) (fill : value) (X : loc)
    (xs : list value) (h : store) :
  fill_ self = Some fill → copy self = false → h !! X = Some xs →
  transform self X h
  = (Ok X, <[X := setitem_mask xs (_get_mask xs (missing_values self)) fill]> h).
Proof.
  intros Hf Hc Hx. unfold transform, check_is_fitted, mbind, ST_bind.
  rewrite Hf, Hc. simpl. unfold read. by rewrite Hx.
Qed.

Lemma transform_on_copy (self : CategoricalImputer) (fill : value) (X : loc)
    (xs : list value) (h : store) :
  fill_ self = Some fill → copy self = true → h !! X = Some xs →
  transform self X h
  = (Ok (fresh (dom h)),
     <[fresh (dom h) := setitem_mask xs (_get_mask xs (missing_values self)) fill]> h).
Proof.
  intros Hf Hc Hx. unfold transform, check_is_fitted, mbind, ST_bind.
  rewrite Hf, Hc. simpl. unfold array_copy, mbind, ST_bind, read, alloc.
  rewrite Hx. simpl. rewrite lookup_insert_eq. simpl. unfold write.
  by rewrite insert_insert_eq.
Qed.

Lemma fresh_loc_unused (h : store) : h !! fresh (dom h) = None.
Proof. apply not_elem_of_dom, is_fresh. Qed.

End TransformFacts.

Section MoreMaskFacts.

Lemma get_mask_entries (X : list value) (v : value) :
  _get_mask X v = map (entry_masked v) X.
Proof.
  unfold _get_mask, entry_masked, pd_isnull, np_equal.
  by destruct (py_eq v (VStr "NaN") || is_None v || is_float_nan v).
Qed.

Lemma py_eq_true (x v : value) : isnull v = false → py_eq x v = true ↔ x = v.
Proof.
  intros Hv. destruct x, v; simpl in *; try done; try (split; congruence).
  - rewrite String.eqb_eq. split; congruence.
  - rewrite Z.eqb_eq. split; congruence.
Qed.

Lemma masked_at_map {A : Type} (f : A → bool) (X : list A) (i : nat) :
  masked_at (map f X) i = true ↔ ∃ x, X !! i = Some x ∧ f x = true.
Proof.
  unfold masked_at. rewrite list_lookup_fmap.
  destruct (X !! i) as [x|]; simpl.
  - split; [intros H; by exists x|]. by intros (y & [= <-] & H).
  - split; [done|]. by intros (y & ? & _).
Qed.

Lemma bool_index_map {A : Type} (f : A → bool) (X : list A) :
  bool_index X (map f X) = filter (λ x, f x = true) X.
Proof.
  induction X as [|x X IH]; simpl; [done|].
  rewrite (filter_cons (λ x, f x = true)).
  destruct (decide (f x = true)) as [E|E].
  - rewrite E. by rewrite IH.
  - apply not_true_is_false in E. by rewrite E.
Qed.

Lemma bool_index_invert_map {A : Type} (f : A → bool) (X : list A) :
  bool_index X (invert (map f X)) = filter (λ x, f x = false) X.
Proof.
  unfold invert. rewrite map_map.
  rewrite (bool_index_map (λ x, negb (f x))).
  apply list_filter_iff. intros x. by destruct (f x).
Qed.

Lemma retained_filter (self : CategoricalImputer) (X : list value) :
  retained self X = filter (λ x, entry_masked (missing_values self) x = false) X.
Proof. unfold retained. rewrite get_mask_entries. apply bool_index_invert_map. Qed.

Lemma setitem_mask_map {A : Type} (f : A → bool) (X : list A) (v : A) :
  setitem_mask X (map f X) v = map (λ x, if f x then v else x) X.
Proof. induction X as [|x X IH]; simpl; [done|]. by rewrite IH. Qed.

Lemma py_in_elem_of (s : string) (l : list string) : py_in s l = true ↔ s ∈ l.
Proof.
  unfold py_in. rewrite existsb_exists. split.
  - intros (t & Hin & Heq). apply String.eqb_eq in Heq. subst.
    by apply list_elem_of_In.
  - intros Hin. exists s. split; [by apply list_elem_of_In|apply String.eqb_refl].
Qed.

End MoreMaskFacts.

(** ** Observed values, frequencies and the order of the modes *)

Section ObservedFacts.

Lemma counted_unmasked (mv x : value) :
  isnull x = false → entry_masked mv x = false ↔ mv = VStr "NaN" ∨ x ≠ mv.
Proof.
  intros Hx. unfold entry_masked.
  destruct (py_eq mv (VStr "NaN") || is_None mv || is_float_nan mv) eqn:E.
  - split; [|done]. intros _.
    destruct mv as [| |s|z]; simpl in E; try done.
    + right. intros ->. done.
    + right. intros ->. done.
    + left. f_equal. rewrite !orb_false_r in E. by apply String.eqb_eq.
  - assert (isnull mv = false) as Hmv by (by destruct mv).
    assert (mv ≠ VStr "NaN") as Hne.
    { intros ->. simpl in E. done. }
    split.
    + intros Hm. right. intros ->. apply not_true_iff_false in Hm. apply Hm.
      by apply py_eq_true.
    + intros [?|Hd]; [done|]. apply not_true_iff_false. intros Hm.
      by apply py_eq_true in Hm.
Qed.

Lemma observed_retained (self : CategoricalImputer) (X : list value) :
  observed (missing_values self) X = dropna (retained self X).
Proof.
  unfold observed, dropna. rewrite retained_filter, list_filter_filter.
  apply list_filter_iff. intros x. unfold counted. split.
  - intros [Hx Hc]. split; [done|]. by apply counted_unmasked.
  - intros [Hx Hm]. split; [done|]. by apply counted_unmasked.
Qed.

Lemma count_of_absent (v : value) (xs : list value) : v ∉ xs → count_of v xs = 0.
Proof.
  intros Hv. destruct (count_of v xs) eqn:E; [done|].
  exfalso. apply Hv, count_of_pos. lia.
Qed.

Lemma most_common_dropna (v : value) (xs : list value) :
  most_frequent v xs ↔ most_common v (dropna xs).
Proof.
  split.
  - intros (Hv & Hin & Hmax). split; [by apply elem_of_dropna|].
    intros w. rewrite (count_of_dropna v xs Hv).
    destruct (isnull w) eqn:Hw.
    + rewrite count_of_absent; [lia|]. rewrite elem_of_dropna. intros [? _]. congruence.
    + rewrite count_of_dropna by done. by apply Hmax.
  - intros [Hin Hmax]. apply elem_of_dropna in Hin as [Hv Hin].
    repeat split; [done..|]. intros w Hw.
    rewrite <- (count_of_dropna w xs Hw), <- (count_of_dropna v xs Hv). apply Hmax.
Qed.

Lemma most_common_observed (self : CategoricalImputer) (X : list value) (v : value) :
  most_common v (observed (missing_values self) X) ↔ most_frequent v (retained self X).
Proof. rewrite observed_retained. symmetry. apply most_common_dropna. Qed.

Lemma has_tie_observed (self : CategoricalImputer) (X : list value) :
  has_tie (observed (missing_values self) X) ↔ tied (retained self X).
Proof.
  unfold has_tie, tied. split; intros (v & w & Hne & Hv & Hw); exists v, w;
    (split; [done|]); split; by apply most_common_observed.
Qed.




(** A frequency claim about a given list, settled by counting. *)
Lemma most_common_by_counting (v : value) (xs : list value) :
  v ∈ xs → Forall (λ w, count_of w xs ≤ count_of v xs) xs → most_common v xs.
Proof.
  intros Hv Hall. split; [done|]. intros w.
  destruct (decide (w ∈ xs)) as [Hw|Hw].
  - rewrite Forall_forall in Hall. by apply Hall.
  - rewrite (count_of_absent w xs Hw). lia.
Qed.

End ObservedFacts.

(** * The claims of the specification *)

Lemma init_returns_imputer (mv : value) (s : string) (fv : value) (tb : string)
    (cp : bool) :
  py_in s strategies = true → py_in tb tie_breaking_strategies = true →
  __init__ mv s fv tb cp = Ok (imputer mv s fv tb cp).
Proof. intros Hs Ht. unfold __init__. by rewrite Hs, Ht. Qed.

Lemma tied_by_computation (xs : list value) :
  Nat.leb 2 (length (Series_mode xs)) = true → tied xs.
Proof. intros H. apply tied_Series_mode. by apply Nat.leb_le. Qed.

Lemma has_tie_by_computation (self : CategoricalImputer) (X : list value) :
  Nat.leb 2 (length (Series_mode (retained self X))) = true →
  has_tie (observed (missing_values self) X).
Proof. intros H. by apply has_tie_observed, tied_by_computation. Qed.

(** C7, as the code has it. When every entry of the training data is [None],
    not-a-number or, under a sentinel other than the token ["NaN"], equal to
    the sentinel (the empty sequence included), [fit] under the
    [most_frequent] strategy raises the [ValueError] for empty data and
    assigns nothing. *)
Theorem fit_all_missing_raises (self : CategoricalImputer) (X : list value) (r : nat) :
  strategy self = "most_frequent" →
  Forall (λ x, isnull x = true
               ∨ (x = missing_values self ∧ missing_values self ≠ VStr "NaN")) X →
  fit X r self = (Raise (ValueError empty_msg), self).
Proof.
  intros Hs Hall. rewrite fit_most_frequent by done.
  rewrite Series_mode_nil; [done|].
  apply Forall_forall. intros x Hx.
  rewrite retained_filter in Hx. apply list_elem_of_filter in Hx as [Hm Hin].
  rewrite Forall_forall in Hall. destruct (Hall x Hin) as [Hn|[-> Hne]]; [done|].
  destruct (isnull (missing_values self)) eqn:Hnull; [done|].
  apply counted_unmasked in Hm; [|done]. by destruct Hm.
Qed.

Lemma fit_all_missing_raises_witness :
  fit [] 0 (imputer (VStr "NaN") "most_frequent" (VStr "?") "error" true)
  = (Raise (ValueError empty_msg),
     imputer (VStr "NaN") "most_frequent" (VStr "?") "error" true)
  ∧ fit [VNone; VNaN; VNone] 3 (imputer (VStr "NaN") "most_frequent" (VStr "?") "random" false)
    = (Raise (ValueError empty_msg),
       imputer (VStr "NaN") "most_frequent" (VStr "?") "random" false)
  ∧ fit [VStr "?"; VNone; VStr "?"] 5 (imputer (VStr "?") "most_frequent" (VStr "?") "first" true)
    = (Raise (ValueError empty_msg),
       imputer (VStr "?") "most_frequent" (VStr "?") "first" true).
Proof.
  split; [|split]; apply fit_all_missing_raises; try reflexivity.
  - constructor.
  - repeat constructor.
  - repeat (constructor; [first [by left | right; by split]|]). constructor.
Defined.

(** C7, as the specification words it, fails: under the default sentinel a
    sequence made of the marker ["NaN"] alone is all missing for the
    specification, yet the mask marks none of its entries and [fit] returns
    with [fill_ = "NaN"]. *)
Lemma fit_string_NaN_only_returns :
  let self := imputer (VStr "NaN") "most_frequent" (VStr "?") "error" true in
  spec_retained (VStr "NaN") [VStr "NaN"; VStr "NaN"] = []
  ∧ _get_mask [VStr "NaN"; VStr "NaN"] (VStr "NaN") = [false; false]
  ∧ ∀ r, ∃ self', fit [VStr "NaN"; VStr "NaN"] r self = (Ok tt, self')
                  ∧ fill_ self' = Some (VStr "NaN").
Proof.
  intros self. split; [reflexivity|]. split; [reflexivity|].
  intros r. eexists. split;
        [apply fit_unique_mode; [done..|]; by apply unique_mode_Series_mode|].
      reflexivity.
Qed.

(** C8, as the code has it. When two or more counted values tie for most
    frequent, an entry being counted when it is neither [None] nor
    not-a-number nor, under a sentinel other than the token ["NaN"], equal to
    the sentinel, [fit] under [most_frequent] with the [error] policy raises
    the [ValueError] for a tie and assigns nothing. On the data
    ["a", "b", "b", "NaN", "a"] with [missing_values = "NaN"] every entry is
    counted, ["a"] and ["b"] both occur twice, ["NaN"] once, and [fit]
    raises in this way. *)
Theorem fit_tie_error_raises :
  (∀ (self : CategoricalImputer) (X : list value) (r : nat),
     strategy self = "most_frequent" → tie_breaking self = "error" →
     has_tie (observed (missing_values self) X) →
     fit X r self = (Raise (ValueError tie_msg), self))
  ∧ (∀ (fv : value) (cp : bool) (r : nat),
       let self := imputer (VStr "NaN") "most_frequent" fv "error" cp in
       let X := [VStr "a"; VStr "b"; VStr "b"; VStr "NaN"; VStr "a"] in
       observed (VStr "NaN") X = X
       ∧ count_of (VStr "a") X = 2
       ∧ count_of (VStr "b") X = 2
       ∧ count_of (VStr "NaN") X = 1
       ∧ has_tie (observed (VStr "NaN") X)
       ∧ fit X r self = (Raise (ValueError tie_msg), self)).
Proof.
  assert (∀ self X r,
     strategy self = "most_frequent" → tie_breaking self = "error" →
     has_tie (observed (missing_values self) X) →
     fit X r self = (Raise (ValueError tie_msg), self)) as Hgen.
  { intros self X r Hs Ht Htie. rewrite fit_most_frequent by done.
    apply has_tie_observed, Series_mode_tied in Htie. unfold fit_outcome.
    destruct (Series_mode (retained self X)) as [|m0 rest] eqn:E; [simpl in Htie; lia|].
    rewrite Ht. rewrite (proj2 (Nat.ltb_lt 1 _)) by lia. done. }
  split; [exact Hgen|].
  intros fv cp r self X.
  assert (has_tie (observed (missing_values self) X)) as Htie
    by (by apply has_tie_by_computation).
  split; [reflexivity|]. do 3 (split; [reflexivity|]). split; [exact Htie|].
  by apply Hgen.
Qed.

Lemma fit_tie_error_raises_witness :
  fit [VInt 7; VStr "?"; VStr "?"; VStr "?"; VInt 3; VNone; VInt 7; VInt 3] 0
      (imputer (VStr "?") "most_frequent" (VStr "?") "error" true)
  = (Raise (ValueError tie_msg),
     imputer (VStr "?") "most_frequent" (VStr "?") "error" true).
Proof.
  apply (proj1 fit_tie_error_raises); [reflexivity | reflexivity |].
  apply has_tie_by_computation. vm_compute. reflexivity.
Defined.

(** C8, as the specification words it, fails. Under the default sentinel,
    on ["NaN", "NaN", "NaN", "a", "b"] the values the specification keeps
    are ["a"] and ["b"], tied, yet [fit] with the [error] policy returns
    with [fill_ = "NaN"]. Under the sentinel ["?"], on
    [None, None, "a", "a"] the specification keeps all four entries, [None]
    and ["a"] tied, yet [fit] returns with [fill_ = "a"]. *)
Lemma tie_for_the_specification_not_raised :
  (let self := imputer (VStr "NaN") "most_frequent" (VStr "?") "error" true in
   let X := [VStr "NaN"; VStr "NaN"; VStr "NaN"; VStr "a"; VStr "b"] in
   spec_retained (VStr "NaN") X = [VStr "a"; VStr "b"]
   ∧ has_tie (spec_retained (VStr "NaN") X)
   ∧ ∀ r, ∃ self', fit X r self = (Ok tt, self') ∧ fill_ self' = Some (VStr "NaN"))
  ∧ (let self := imputer (VStr "?") "most_frequent" (VStr "?") "error" true in
     let X := [VNone; VNone; VStr "a"; VStr "a"] in
     spec_retained (VStr "?") X = X
     ∧ has_tie (spec_retained (VStr "?") X)
     ∧ ∀ r, ∃ self', fit X r self = (Ok tt, self') ∧ fill_ self' = Some (VStr "a")).
Proof.
  split.
  - intros self X. split; [reflexivity|]. split.
    + exists (VStr "a"), (VStr "b"). split; [discriminate|].
      split; apply most_common_by_counting;
        solve [ apply list_elem_of_In; simpl; tauto
              | repeat constructor ].
    + intros r. eexists. split;
        [apply fit_unique_mode; [done..|]; by apply unique_mode_Series_mode|].
      reflexivity.
  - intros self X. split; [reflexivity|]. split.
    + exists VNone, (VStr "a"). split; [discriminate|].
      split; apply most_common_by_counting;
        solve [ apply list_elem_of_In; simpl; tauto
              | repeat constructor ].
    + intros r. eexists. split;
        [apply fit_unique_mode; [done..|]; by apply unique_mode_Series_mode|].
      reflexivity.
Qed.




Lemma run_is_fitted (cs : list call) (w : world) :
  is_fitted (estimator (run cs w).2) = is_fitted (estimator w) || (run cs w).1.
Proof.
  revert w. induction cs as [|c cs IH]; intros w; simpl.
  { by rewrite orb_false_r. }
  destruct (step c w) as [b w'] eqn:Estep.
  specialize (IH w'). destruct (run cs w') as [b' w'']. simpl in *.
  rewrite IH. clear IH.
  assert (is_fitted (estimator w') = is_fitted (estimator w) || b) as ->.
  { destruct c as [X r|X]; simpl in Estep.
    - destruct (arrays w !! X) as [xs|].
      + pose proof (fit_frame (estimator w) xs r) as Hf.
        destruct (fit xs r (estimator w)) as [[[]|e] self'];
          inversion Estep; subst; simpl.
        * destruct Hf as [v ->]. simpl. by rewrite orb_true_r.
        * by rewrite orb_false_r.
      + inversion Estep; subst. by rewrite orb_false_r.
    - destruct (transform (estimator w) X (arrays w)) as [res h'].
      inversion Estep; subst. simpl. by rewrite orb_false_r. }
  by rewrite orb_assoc.
Qed.

(** C6. [fill_] is present exactly when some [fit] has returned: a newly
    constructed estimator has none and [transform] on an estimator without
    one raises [NotFittedError], leaving the arrays alone; a [fit] that
    raises, whatever the exception, leaves the estimator as it was, an
    earlier [fill_] included, and a [fit] that returns has assigned it;
    over any sequence of calls, [fill_] is present at the end exactly when it
    was present at the start or some [fit] of the sequence returned. *)
Theorem fill_present_iff_fit_returned :
  (∀ mv s fv tb cp self,
     __init__ mv s fv tb cp = Ok self → fill_ self = None)
  ∧ (∀ self X h,
       fill_ self = None → transform self X h = (Raise NotFittedError, h))
  ∧ (∀ self X r,
       match fit X r self with
       | (Ok _, self') => is_fitted self' = true
       | (Raise _, self') => self' = self
       end)
  ∧ (∀ cs w,
       is_fitted (estimator (run cs w).2)
       = is_fitted (estimator w) || (run cs w).1).
Proof.
  split; [|split; [|split]].
  - intros mv s fv tb cp self. unfold __init__.
    destruct (negb _); [done|]. destruct (negb _); [done|].
    by intros [= <-].
  - apply transform_not_fitted.
  - intros self X r. pose proof (fit_frame self X r) as Hf.
    destruct (fit X r self) as [[[]|e] self']; [|done].
    by destruct Hf as [v ->].
  - apply run_is_fitted.
Qed.

Lemma fill_present_iff_fit_returned_witness :
  transform (imputer (VStr "NaN") "most_frequent" (VStr "?") "error" true) 1%positive
            {[ 1%positive := [VStr "a"; VNone] ]}
  = (Raise NotFittedError, {[ 1%positive := [VStr "a"; VNone] ]}).
Proof.
  apply (proj1 (proj2 fill_present_iff_fit_returned)). reflexivity.
Defined.

(** C9. On a fitted estimator and an array [X] of the store, [transform]
    returns an array holding the imputed values and touches no other array.
    With [copy] set, the returned array is one the store did not hold before
    and [X] keeps its contents; with [copy] unset, the returned array is [X]
    itself, which now holds the result. *)
Theorem transform_copy_flag (self : CategoricalImputer) (fill : value) (X : loc)
    (xs : list value) (h : store) :
  fill_ self = Some fill → h !! X = Some xs →
  ∃ Y h',
    transform self X h = (Ok Y, h')
    ∧ h' !! Y = Some (setitem_mask xs (_get_mask xs (missing_values self)) fill)
    ∧ (∀ Z, Z ≠ Y → h' !! Z = h !! Z)
    ∧ (if copy self then h !! Y = None ∧ Y ≠ X ∧ h' !! X = Some xs else Y = X).
Proof.
  intros Hf Hx. destruct (copy self) eqn:Hc.
  - exists (fresh (dom h)). eexists. split; [by apply transform_on_copy|].
    pose proof (fresh_loc_unused h) as Hfresh.
    assert (fresh (dom h) ≠ X) as Hne by (intros E; rewrite E in Hfresh; congruence).
    split; [by rewrite lookup_insert_eq|]. split.
    + intros Z HZ. by rewrite lookup_insert_ne.
    + split; [done|]. split; [done|]. by rewrite lookup_insert_ne.
  - exists X. eexists. split; [by apply transform_in_place|].
    split; [by rewrite lookup_insert_eq|]. split; [|done].
    intros Z HZ. by rewrite lookup_insert_ne.
Qed.

Lemma transform_copy_flag_witness :
  (∃ Y h',
     transform (mkImputer (VStr "NaN") "most_frequent" (VStr "?") "error" false
                          (Some (VStr "b")))
               1%positive {[ 1%positive := [VStr "a"; VNone; VStr "b"] ]}
     = (Ok Y, h')
     ∧ Y = 1%positive
     ∧ h' !! 1%positive = Some [VStr "a"; VStr "b"; VStr "b"])
  ∧ (∃ Y h',
       transform (mkImputer (VStr "NaN") "most_frequent" (VStr "?") "error" true
                            (Some (VStr "b")))
                 1%positive {[ 1%positive := [VStr "a"; VNone; VStr "b"] ]}
       = (Ok Y, h')
       ∧ Y ≠ 1%positive
       ∧ h' !! 1%positive = Some [VStr "a"; VNone; VStr "b"]
       ∧ h' !! Y = Some [VStr "a"; VStr "b"; VStr "b"]).
Proof.
  split.
  - destruct (transform_copy_flag
                (mkImputer (VStr "NaN") "most_frequent" (VStr "?") "error" false
                           (Some (VStr "b")))
                (VStr "b") 1%positive [VStr "a"; VNone; VStr "b"]
                {[ 1%positive := [VStr "a"; VNone; VStr "b"] ]})
      as (Y & h' & Ht & Hy & _ & HX); [reflexivity | reflexivity |].
    simpl in HX. subst Y. exists 1%positive, h'.
    split; [exact Ht|]. split; [reflexivity|]. exact Hy.
  - destruct (transform_copy_flag
                (mkImputer (VStr "NaN") "most_frequent" (VStr "?") "error" true
                           (Some (VStr "b")))
                (VStr "b") 1%positive [VStr "a"; VNone; VStr "b"]
                {[ 1%positive := [VStr "a"; VNone; VStr "b"] ]})
      as (Y & h' & Ht & Hy & _ & HX); [reflexivity | reflexivity |].
    simpl in HX. destruct HX as (_ & Hne & Hkeep). exists Y, h'.
    split; [exact Ht|]. split; [exact Hne|]. split; [exact Hkeep|]. exact Hy.
Defined.

(** C3, as the code has it. A sentinel that is the token ["NaN"], [None] or
    the float not-a-number makes the mask [pd.isnull]: it marks the entries
    that are [None] or not-a-number and no string, the string ["NaN"]
    included, which is data like any other string. With
    [missing_values = "NaN"] and the [error] policy, [fit] on
    ["a", "b", "b", "NaN"] stores ["b"]; [transform] then leaves
    ["a", "NaN", "b"] as it is and turns ["a", None, "b"] into
    ["a", "b", "b"]. *)
Theorem get_mask_canonical_marks_nulls :
  (∀ X, _get_mask X (VStr "NaN") = pd_isnull X
        ∧ _get_mask X VNone = pd_isnull X
        ∧ _get_mask X VNaN = pd_isnull X)
  ∧ isnull VNone = true ∧ isnull VNaN = true
  ∧ (∀ s, isnull (VStr s) = false) ∧ (∀ z, isnull (VInt z) = false)
  ∧ (let self := imputer (VStr "NaN") "most_frequent" (VStr "?") "error" true in
     ∀ r, fit [VStr "a"; VStr "b"; VStr "b"; VStr "NaN"] r self
          = (Ok tt, with_fill_ self (VStr "b")))
  ∧ (let fitted := with_fill_ (imputer (VStr "NaN") "most_frequent" (VStr "?") "error" true)
                              (VStr "b") in
     ∀ (X : loc) (h : store),
       (h !! X = Some [VStr "a"; VStr "NaN"; VStr "b"] →
        ∃ Y h', transform fitted X h = (Ok Y, h')
                ∧ h' !! Y = Some [VStr "a"; VStr "NaN"; VStr "b"])
       ∧ (h !! X = Some [VStr "a"; VNone; VStr "b"] →
          ∃ Y h', transform fitted X h = (Ok Y, h')
                  ∧ h' !! Y = Some [VStr "a"; VStr "b"; VStr "b"])).
Proof.
  split; [by intros X|]. do 4 (split; [done|]). split.
  - intros self r. apply fit_unique_mode; [done..|].
    by apply unique_mode_Series_mode.
  - intros fitted X h. split; intros Hx.
    + eexists _, _. split; [by apply (transform_on_copy fitted (VStr "b"))|].
      by rewrite lookup_insert_eq.
    + eexists _, _. split; [by apply (transform_on_copy fitted (VStr "b"))|].
      by rewrite lookup_insert_eq.
Qed.

Lemma get_mask_canonical_marks_nulls_witness :
  ∃ Y h',
    transform (with_fill_ (imputer (VStr "NaN") "most_frequent" (VStr "?") "error" true)
                          (VStr "b"))
              1%positive {[ 1%positive := [VStr "a"; VNone; VStr "b"] ]}
    = (Ok Y, h')
    ∧ h' !! Y = Some [VStr "a"; VStr "b"; VStr "b"].
Proof.
  apply (proj2 (proj2 (proj2 (proj2 (proj2 (proj2 get_mask_canonical_marks_nulls)))))
           1%positive {[ 1%positive := [VStr "a"; VNone; VStr "b"] ]}).
  reflexivity.
Defined.

(** C3, as the specification words it, fails: under [missing_values = "NaN"]
    the mask does not mark the string entry ["NaN"], and after [fit] on
    ["a", "b", "b", "NaN"] the call [transform(["a", "NaN", "b"])] returns
    ["a", "NaN", "b"], not ["a", "b", "b"]. *)
Lemma string_NaN_entry_is_not_masked :
  _get_mask [VStr "a"; VStr "NaN"; VStr "b"] (VStr "NaN") = [false; false; false]
  ∧ ∃ self' Y h',
      fit [VStr "a"; VStr "b"; VStr "b"; VStr "NaN"] 0
          (imputer (VStr "NaN") "most_frequent" (VStr "?") "error" true)
      = (Ok tt, self')
      ∧ transform self' 1%positive {[ 1%positive := [VStr "a"; VStr "NaN"; VStr "b"] ]}
        = (Ok Y, h')
      ∧ h' !! Y = Some [VStr "a"; VStr "NaN"; VStr "b"]
      ∧ h' !! Y ≠ Some [VStr "a"; VStr "b"; VStr "b"].
Proof.
  split; [reflexivity|].
  eexists _, _, _. split; [vm_compute; reflexivity|].
  split; [vm_compute; reflexivity|].
  split; [vm_compute; reflexivity|].
  vm_compute. discriminate.
Qed.

(** ** The random policy: [random.choice(modes[0])]

    The draw is made among the characters of the first mode, not among the
    modes. The lemmas below evaluate [fit] where that shows. *)

Lemma random_choice_pair (a b : ascii) (r : nat) :
  random_choice (VStr (String a (String b EmptyString))) r
  = Ok (VStr (String a EmptyString))
  ∨ random_choice (VStr (String a (String b EmptyString))) r
    = Ok (VStr (String b EmptyString)).
Proof.
  unfold random_choice.
  change (String.length (String a (String b EmptyString))) with 2.
  change (Nat.eqb 2 0) with false. cbv iota.
  pose proof (Nat.mod_upper_bound r 2 ltac:(lia)) as Hlt.
  destruct (r mod 2) as [|[|k]]; [left|right|lia]; reflexivity.
Qed.

Lemma not_most_frequent_by_computation (v : value) (xs : list value) :
  forallb (λ m, negb (bool_decide (m = v))) (Series_mode xs) = true →
  ¬ most_frequent v xs.
Proof.
  intros Hall Hv. apply elem_of_Series_mode in Hv.
  rewrite forallb_forall in Hall. apply list_elem_of_In in Hv.
  specialize (Hall v Hv). by rewrite bool_decide_eq_true_2 in Hall.
Qed.

(** With any policy but the random one, [fit] then [transform] on the same
    data with a unique mode fills the masked positions with that mode and keeps
    every other entry. *)
Lemma fit_transform_unique_mode (self : CategoricalImputer) (S : list value)
    (r : nat) (v : value) (X : loc) (h : store) :
  strategy self = "most_frequent" → tie_breaking self ≠ "random" →
  unique_mode v (retained self S) → h !! X = Some S →
  ∃ self' Y h' out,
    fit S r self = (Ok tt, self')
    ∧ transform self' X h = (Ok Y, h')
    ∧ h' !! Y = Some out
    ∧ length out = length S
    ∧ ∀ i, out !! i
           = (λ x, if masked_at (_get_mask S (missing_values self)) i then v else x)
             <$> S !! i.
Proof.
  intros Hs Ht Hu Hx.
  exists (with_fill_ self v).
  destruct (copy self) eqn:Hc.
  - eexists _, _, _. split; [by apply fit_unique_mode|].
    split; [by apply (transform_on_copy _ v)|].
    split; [by rewrite lookup_insert_eq|].
    split; [apply length_setitem_mask|]. intros i. apply lookup_setitem_mask.
  - eexists _, _, _. split; [by apply fit_unique_mode|].
    split; [by apply (transform_in_place _ v)|].
    split; [by rewrite lookup_insert_eq|].
    split; [apply length_setitem_mask|]. intros i. apply lookup_setitem_mask.
Qed.

(** C1, evaluated where the code departs from it. On
    ["ab", "cd", "ab", "cd"] the modes are ["ab"] and ["cd"], and [fit] under
    the random policy stores ["a"] or ["b"], a character of the first mode and
    not one of the tied values, whatever the draw. On ["a", "b", "a", "b"] it
    stores ["a"] at every draw, never ["b"]; on [1, 2, 1, 2] it raises
    [TypeError]. *)
Theorem fit_random_tie_draws_character :
  let self := imputer (VStr "NaN") "most_frequent" (VStr "?") "random" true in
  let X := [VStr "ab"; VStr "cd"; VStr "ab"; VStr "cd"] in
  tied (retained self X)
  ∧ Series_mode (retained self X) = [VStr "ab"; VStr "cd"]
  ∧ (∀ r, ∃ c, fit X r self = (Ok tt, with_fill_ self c)
               ∧ (c = VStr "a" ∨ c = VStr "b")
               ∧ ¬ most_frequent c (retained self X))
  ∧ (∀ r, fit [VStr "a"; VStr "b"; VStr "a"; VStr "b"] r self
          = (Ok tt, with_fill_ self (VStr "a")))
  ∧ (∀ r, fit [VInt 1; VInt 2; VInt 1; VInt 2] r self = (Raise TypeError, self)).
Proof.
  intros self X.
  split; [by apply tied_by_computation|]. split; [reflexivity|]. split; [|split].
  - intros r. rewrite fit_most_frequent by done.
    change (Series_mode (retained self X)) with [VStr "ab"; VStr "cd"].
    unfold fit_outcome.
    change (Nat.ltb 1 (length [VStr "ab"; VStr "cd"]) && String.eqb (tie_breaking self) "error")
      with false.
    change (String.eqb (tie_breaking self) "random") with true. cbv iota.
    destruct (random_choice_pair "a" "b" r) as [-> | ->].
    + exists (VStr "a"). split; [done|]. split; [by left|].
      by apply not_most_frequent_by_computation.
    + exists (VStr "b"). split; [done|]. split; [by right|].
      by apply not_most_frequent_by_computation.
  - intros r. rewrite fit_most_frequent by done.
    change (Series_mode (retained self [VStr "a"; VStr "b"; VStr "a"; VStr "b"]))
      with [VStr "a"; VStr "b"].
    unfold fit_outcome, random_choice.
    change (String.length "a") with 1. by rewrite Nat.mod_1_r.
  - intros r. by rewrite fit_most_frequent.
Qed.

(** C2, evaluated where the code departs from it. On ["ab", "ab", "cd"] the
    unique mode is ["ab"], and [fit] under the random policy stores ["a"] or
    ["b"], whatever the draw, while the two other policies store ["ab"]. *)
Theorem fit_random_unique_mode_draws_character :
  let X := [VStr "ab"; VStr "ab"; VStr "cd"] in
  let self := imputer (VStr "NaN") "most_frequent" (VStr "?") in
  unique_mode (VStr "ab") (retained (self "random" true) X)
  ∧ (∀ r, ∃ c, fit X r (self "random" true) = (Ok tt, with_fill_ (self "random" true) c)
               ∧ (c = VStr "a" ∨ c = VStr "b"))
  ∧ (∀ r, fit X r (self "error" true) = (Ok tt, with_fill_ (self "error" true) (VStr "ab")))
  ∧ (∀ r, fit X r (self "first" true) = (Ok tt, with_fill_ (self "first" true) (VStr "ab"))).
Proof.
  intros X self.
  assert (∀ tb, unique_mode (VStr "ab") (retained (self tb true) X)) as Hu
    by (intros tb; by apply unique_mode_Series_mode).
  split; [apply Hu|]. split; [|split].
  - intros r. rewrite (fit_unique_mode_random _ _ _ (VStr "ab")) by done.
    destruct (random_choice_pair "a" "b" r) as [-> | ->]; eexists; split; eauto.
  - intros r. by apply fit_unique_mode.
  - intros r. by apply fit_unique_mode.
Qed.

(** C4, evaluated where the code departs from it. Under the constant
    strategy with [fill_value = "NA"] and the random policy, [fit] on
    ["x", None, "y"] stores ["N"] or ["A"], whatever the draw; with an empty
    [fill_value] it raises [IndexError], with an integer one [TypeError].
    The two other policies store [fill_value], on empty data too. *)
Theorem fit_constant_random_draws_character :
  let X := [VStr "x"; VNone; VStr "y"] in
  let self := imputer (VStr "NaN") "constant" in
  (∀ r, ∃ c, fit X r (self (VStr "NA") "random" true)
             = (Ok tt, with_fill_ (self (VStr "NA") "random" true) c)
             ∧ (c = VStr "N" ∨ c = VStr "A"))
  ∧ (∀ r, fit X r (self (VStr "") "random" true)
          = (Raise IndexError, self (VStr "") "random" true))
  ∧ (∀ r, fit X r (self (VInt 0) "random" true)
          = (Raise TypeError, self (VInt 0) "random" true))
  ∧ (∀ r fv data, fit data r (self fv "error" true)
                  = (Ok tt, with_fill_ (self fv "error" true) fv))
  ∧ (∀ r fv data, fit data r (self fv "first" true)
                  = (Ok tt, with_fill_ (self fv "first" true) fv)).
Proof.
  intros X self. split; [|split; [|split; [|split]]].
  - intros r. rewrite fit_constant by done. unfold fit_outcome.
    change (fill_value (self (VStr "NA") "random" true)) with (VStr "NA").
    change (Nat.ltb 1 (length [VStr "NA"])) with false. cbv iota.
    change (String.eqb (tie_breaking (self (VStr "NA") "random" true)) "random") with true.
    cbv iota.
    destruct (random_choice_pair "N" "A" r) as [-> | ->]; eexists; split; eauto.
  - intros r. by rewrite fit_constant.
  - intros r. by rewrite fit_constant.
  - intros r fv data. by apply fit_constant_fill_value.
  - intros r fv data. by apply fit_constant_fill_value.
Qed.

(** C5, evaluated where the code departs from it. On ["ab", None] the
    unique mode is ["ab"]; under the random policy [fit] then [transform] on
    that data returns ["ab", "a"] or ["ab", "b"], whatever the draw, and so
    never ["ab", "ab"]. *)
Theorem fit_transform_random_fills_character :
  let self := imputer (VStr "NaN") "most_frequent" (VStr "?") "random" true in
  let S := [VStr "ab"; VNone] in
  let h : store := {[ 1%positive := S ]} in
  unique_mode (VStr "ab") (retained self S)
  ∧ ∀ r, ∃ c self' Y h',
      fit S r self = (Ok tt, self')
      ∧ transform self' 1%positive h = (Ok Y, h')
      ∧ h' !! Y = Some [VStr "ab"; c]
      ∧ (c = VStr "a" ∨ c = VStr "b").
Proof.
  intros self S h.
  assert (unique_mode (VStr "ab") (retained self S)) as Hu
    by (by apply unique_mode_Series_mode).
  split; [exact Hu|]. intros r.
  rewrite (fit_unique_mode_random _ _ _ (VStr "ab")) by done.
  destruct (random_choice_pair "a" "b" r) as [-> | ->].
  - exists (VStr "a"). eexists _, _, _. split; [done|].
    split; [by apply (transform_on_copy _ (VStr "a") _ S)|].
    split; [by rewrite lookup_insert_eq|]. by left.
  - exists (VStr "b"). eexists _, _, _. split; [done|].
    split; [by apply (transform_on_copy _ (VStr "b") _ S)|].
    split; [by rewrite lookup_insert_eq|]. by right.
Qed.

(** * Further properties of the code *)

(** X1. [__init__] checks [strategy] first and [tie_breaking] second: with
    both among the accepted names it returns the estimator holding the five
    options and no [fill_]; with an unknown [strategy] it raises the
    [ValueError] that names it, whatever [tie_breaking] is; with a known
    [strategy] and an unknown [tie_breaking] it raises the [ValueError] that
    names the latter. *)
Theorem init_validates_options (mv : value) (s : string) (fv : value) (tb : string)
    (cp : bool) :
  (s ∈ strategies → tb ∈ tie_breaking_strategies →
   __init__ mv s fv tb cp = Ok (mkImputer mv s fv tb cp None))
  ∧ (s ∉ strategies →
     __init__ mv s fv tb cp = Raise (ValueError (not_in_msg s strategies)))
  ∧ (s ∈ strategies → tb ∉ tie_breaking_strategies →
     __init__ mv s fv tb cp
     = Raise (ValueError (not_in_msg tb tie_breaking_strategies))).
Proof.
  unfold __init__. split; [|split].
  - intros Hs Ht. apply py_in_elem_of in Hs, Ht. by rewrite Hs, Ht.
  - intros Hs. destruct (py_in s strategies) eqn:E; [|done].
    by apply py_in_elem_of in E.
  - intros Hs Ht. apply py_in_elem_of in Hs. rewrite Hs.
    destruct (py_in tb tie_breaking_strategies) eqn:E; [|done].
    by apply py_in_elem_of in E.
Qed.

Lemma init_validates_options_witness :
  __init__ (VStr "NaN") "most_frequent" (VStr "?") "error" true
  = Ok (mkImputer (VStr "NaN") "most_frequent" (VStr "?") "error" true None)
  ∧ __init__ (VStr "NaN") "mean" (VStr "?") "coin" true
    = Raise (ValueError "Strategy mean not in ['constant', 'most_frequent']")
  ∧ __init__ (VStr "NaN") "constant" (VStr "?") "coin" true
    = Raise (ValueError "Strategy coin not in ['error', 'first', 'random']").
Proof.
  split; [|split].
  - apply (proj1 (init_validates_options (VStr "NaN") "most_frequent" (VStr "?")
                    "error" true)); apply py_in_elem_of; reflexivity.
  - apply (proj1 (proj2 (init_validates_options (VStr "NaN") "mean" (VStr "?")
                           "coin" true))).
    intros H. apply py_in_elem_of in H. discriminate H.
  - apply (proj2 (proj2 (init_validates_options (VStr "NaN") "constant" (VStr "?")
                           "coin" true))).
    + apply py_in_elem_of. reflexivity.
    + intros H. apply py_in_elem_of in H. discriminate H.
Defined.

(** X2. With a sentinel that is an integer or a string other than ["NaN"],
    the mask has the length of the data and marks exactly the entries equal
    to the sentinel; a [None] or not-a-number entry is never marked. *)
Theorem get_mask_custom_sentinel (X : list value) (v : value) :
  isnull v = false → v ≠ VStr "NaN" →
  length (_get_mask X v) = length X
  ∧ (∀ i, masked_at (_get_mask X v) i = true ↔ X !! i = Some v)
  ∧ (∀ i x, X !! i = Some x → isnull x = true → masked_at (_get_mask X v) i = false).
Proof.
  intros Hv Hne. split; [apply length_get_mask|].
  assert (∀ x, entry_masked v x = py_eq x v) as Hentry.
  { intros x. unfold entry_masked.
    destruct v as [| |s|z]; simpl in *; try done.
    destruct (String.eqb s "NaN") eqn:E; [|done].
    apply String.eqb_eq in E. congruence. }
  assert (∀ i, masked_at (_get_mask X v) i = true ↔ X !! i = Some v) as Hiff.
  { intros i. rewrite get_mask_entries, masked_at_map. split.
    - intros (x & Hx & Hm). rewrite Hentry in Hm.
      apply py_eq_true in Hm; [|done]. by subst.
    - intros Hx. exists v. split; [done|]. rewrite Hentry. by apply py_eq_true. }
  split; [exact Hiff|].
  intros i x Hx Hnull. destruct (masked_at (_get_mask X v) i) eqn:E; [|done].
  apply Hiff in E. rewrite Hx in E. injection E as ->. congruence.
Qed.

Lemma get_mask_custom_sentinel_witness :
  length (_get_mask [VStr "a"; VStr "?"; VNone; VStr "NaN"] (VStr "?")) = 4
  ∧ masked_at (_get_mask [VStr "a"; VStr "?"; VNone; VStr "NaN"] (VStr "?")) 1 = true
  ∧ masked_at (_get_mask [VStr "a"; VStr "?"; VNone; VStr "NaN"] (VStr "?")) 2 = false.
Proof.
  destruct (get_mask_custom_sentinel [VStr "a"; VStr "?"; VNone; VStr "NaN"] (VStr "?"))
    as (Hlen & Hiff & Hnull); [reflexivity | discriminate |].
  split; [exact Hlen|]. split.
  - apply Hiff. reflexivity.
  - apply (Hnull 2 VNone); reflexivity.
Defined.

Section MoreModeFacts.

Lemma count_of_perm (v : value) (xs ys : list value) :
  xs ≡ₚ ys → count_of v xs = count_of v ys.
Proof. intros H. unfold count_of. by rewrite H. Qed.

Lemma most_frequent_perm (v : value) (xs ys : list value) :
  xs ≡ₚ ys → most_frequent v xs → most_frequent v ys.
Proof.
  intros H (Hv & Hin & Hmax). repeat split; [done|by rewrite <- H|].
  intros w Hw. rewrite <- !(count_of_perm _ xs ys H). by apply Hmax.
Qed.

Lemma htable_mode_perm (xs ys : list value) :
  xs ≡ₚ ys → htable_mode xs ≡ₚ htable_mode ys.
Proof.
  intros H. apply NoDup_Permutation; [apply NoDup_htable_mode..|].
  intros v. rewrite !elem_of_htable_mode.
  split; apply most_frequent_perm; [done|by symmetry].
Qed.

Lemma forallb_perm (f : value → bool) (xs ys : list value) :
  xs ≡ₚ ys → forallb f xs = forallb f ys.
Proof.
  induction 1 as [|x xs ys _ IH|x y xs|xs ys zs _ IH1 _ IH2]; simpl.
  - done.
  - by rewrite IH.
  - by destruct (f x), (f y).
  - by rewrite IH1.
Qed.

Lemma comparable_perm (xs ys : list value) :
  xs ≡ₚ ys → comparable xs = comparable ys.
Proof.
  intros H. unfold comparable.
  by rewrite (forallb_perm is_str xs ys H), (forallb_perm is_int xs ys H).
Qed.

Lemma value_le_antisym (a b : value) : value_le a b → value_le b a → a = b.
Proof.
  unfold value_le. destruct a, b; simpl; try done.
  - intros H1 H2. f_equal. by apply String.leb_antisym.
  - rewrite !Z.leb_le. intros H1 H2. f_equal. lia.
Qed.

(** Where the modes can be sorted, they come out the same for every order
    of the data. *)
Lemma Series_mode_perm_invariant (xs ys : list value) :
  xs ≡ₚ ys → comparable (htable_mode xs) = true → Series_mode xs = Series_mode ys.
Proof.
  intros H Hc.
  pose proof (htable_mode_perm xs ys H) as Hp.
  assert (comparable (htable_mode ys) = true) as Hc'
    by (by rewrite <- (comparable_perm _ _ Hp)).
  apply (StronglySorted_unique_strong value_le).
  - intros a b _ _. apply value_le_antisym.
  - by apply Series_mode_ascending.
  - by apply Series_mode_ascending.
  - by rewrite !Series_mode_perm.
Qed.

Lemma Series_mode_nonempty (x : value) (xs : list value) :
  x ∈ xs → isnull x = false → Series_mode xs ≠ [].
Proof.
  intros Hin Hx E.
  assert (htable_mode xs = []) as E'.
  { apply Permutation_nil_r. rewrite <- E. symmetry. apply Series_mode_perm. }
  rewrite htable_mode_filter in E'.
  set (obs := dropna xs) in *.
  set (counts := map (λ k, count_of k obs) (unique obs)) in *.
  assert (x ∈ unique obs) as Hk by (by apply elem_of_unique, elem_of_dropna).
  assert (counts ≠ []) as Hne.
  { unfold counts. destruct (unique obs); [by apply elem_of_nil in Hk|done]. }
  apply max_count_elem in Hne. unfold counts at 2 in Hne.
  apply list_elem_of_fmap in Hne as (k & Hmax & Hkin).
  assert (k ∈ filter (λ k, count_of k obs = max_count counts) (unique obs)) as Hf
    by (by apply list_elem_of_filter).
  rewrite E' in Hf. by apply elem_of_nil in Hf.
Qed.

Lemma Series_mode_nil_iff (xs : list value) :
  Series_mode xs = [] ↔ Forall (λ x, isnull x = true) xs.
Proof.
  split; [|apply Series_mode_nil].
  intros E. apply Forall_forall. intros x Hin.
  destruct (isnull x) eqn:Hx; [done|].
  by destruct (Series_mode_nonempty x xs Hin Hx).
Qed.

End MoreModeFacts.

(** X3. What [fit] learns depends on the data only through the entries the
    mask leaves: two training arrays with the same unmasked entries, in the
    same order, give the same outcome, so masked entries may be added or
    removed freely. *)
Theorem fit_reads_unmasked_entries (self : CategoricalImputer) (X X' : list value)
    (r : nat) :
  retained self X = retained self X' → fit X r self = fit X' r self.
Proof.
  intros H.
  destruct (decide (strategy self = "most_frequent")) as [H1|H1].
  { rewrite !fit_most_frequent by done. by rewrite H. }
  destruct (decide (strategy self = "constant")) as [H2|H2].
  { by rewrite !fit_constant. }
  by rewrite !fit_other_strategy.
Qed.

Lemma fit_reads_unmasked_entries_witness :
  fit [VStr "a"; VNone; VStr "b"; VStr "a"; VNaN] 0
      (imputer (VStr "NaN") "most_frequent" (VStr "?") "error" true)
  = fit [VStr "a"; VStr "b"; VStr "a"] 0
        (imputer (VStr "NaN") "most_frequent" (VStr "?") "error" true).
Proof. apply fit_reads_unmasked_entries. reflexivity. Defined.

(** X4. Under the [most_frequent] strategy, when the modes of the data can
    be sorted (all strings, or all integers), [fit] returns the same outcome
    on every reordering of the training data. *)
Theorem fit_order_independent (self : CategoricalImputer) (X X' : list value) (r : nat) :
  strategy self = "most_frequent" → X ≡ₚ X' →
  comparable (htable_mode (retained self X)) = true →
  fit X r self = fit X' r self.
Proof.
  intros Hs Hp Hc. rewrite !fit_most_frequent by done.
  rewrite (Series_mode_perm_invariant (retained self X) (retained self X')); [done| |done].
  rewrite !retained_filter. by rewrite Hp.
Qed.

Lemma fit_order_independent_witness :
  fit [VStr "b"; VStr "a"; VNone; VStr "b"; VStr "a"] 0
      (imputer (VStr "NaN") "most_frequent" (VStr "?") "first" true)
  = fit [VStr "a"; VStr "a"; VStr "b"; VStr "b"; VNone] 0
        (imputer (VStr "NaN") "most_frequent" (VStr "?") "first" true).
Proof.
  apply fit_order_independent; [reflexivity | | reflexivity].
  change [VStr "b"; VStr "a"; VNone; VStr "b"; VStr "a"]
    with ([VStr "b"] ++ [VStr "a"; VNone; VStr "b"; VStr "a"]).
  etransitivity; [apply Permutation_app_comm|]. simpl.
  apply perm_skip.
  change [VNone; VStr "b"; VStr "a"; VStr "b"]
    with ([VNone] ++ [VStr "b"; VStr "a"; VStr "b"]).
  etransitivity; [apply Permutation_app_comm|]. simpl.
  etransitivity; [apply perm_swap|]. apply perm_skip. apply perm_skip.
  reflexivity.
Defined.

Section MoreFitFacts.

Lemma substring_one (s : string) (n : nat) :
  n < String.length s →
  ∃ c, String.substring n 1 s = String c EmptyString ∧ String.get n s = Some c.
Proof.
  revert n. induction s as [|a s IH]; intros n Hn; simpl in Hn; [lia|].
  destruct n as [|n]; simpl.
  - exists a. split; [|done]. by destruct s.
  - apply IH. lia.
Qed.

Lemma random_choice_returns (v w : value) (r : nat) :
  random_choice v r = Ok w →
  ∃ s c, v = VStr s ∧ w = VStr (String c EmptyString)
         ∧ String.get (r mod String.length s) s = Some c.
Proof.
  destruct v as [| |s|z]; simpl; try done.
  destruct (Nat.eqb (String.length s) 0) eqn:E; [done|].
  apply Nat.eqb_neq in E. intros [= <-].
  destruct (substring_one s (r mod String.length s)) as (c & -> & Hc).
  { apply Nat.mod_upper_bound. lia. }
  by exists s, c.
Qed.

Lemma random_choice_raises (v : value) (r : nat) (e : exn) :
  random_choice v r = Raise e → e = TypeError ∨ e = IndexError.
Proof.
  destruct v as [| |s|z]; simpl; try (intros [= <-]; by left).
  destruct (Nat.eqb (String.length s) 0); [|done]. intros [= <-]. by right.
Qed.

Lemma msgs_differ : empty_msg ≠ tie_msg.
Proof. discriminate. Qed.

(** Every way [fit_outcome] can end on a non-empty list of modes. *)
Lemma fit_outcome_cons (self : CategoricalImputer) (m0 : value) (rest : list value)
    (r : nat) :
  (rest ≠ [] ∧ tie_breaking self = "error"
   ∧ fit_outcome self (m0 :: rest) r = (Raise (ValueError tie_msg), self))
  ∨ (tie_breaking self = "random"
     ∧ ((∃ v, random_choice m0 r = Ok v
              ∧ fit_outcome self (m0 :: rest) r = (Ok tt, with_fill_ self v))
        ∨ (∃ e, random_choice m0 r = Raise e
                ∧ fit_outcome self (m0 :: rest) r = (Raise e, self))))
  ∨ (tie_breaking self ≠ "random" ∧ (rest = [] ∨ tie_breaking self ≠ "error")
     ∧ fit_outcome self (m0 :: rest) r = (Ok tt, with_fill_ self m0)).
Proof.
  unfold fit_outcome.
  destruct (String.eqb (tie_breaking self) "error") eqn:Ee.
  - apply String.eqb_eq in Ee. destruct rest as [|m1 rest].
    + right. right. rewrite Ee. simpl. split; [done|]. split; [by left|done].
    + left. split; [done|]. split; [done|]. by rewrite andb_true_r.
  - rewrite andb_false_r. apply String.eqb_neq in Ee.
    destruct (String.eqb (tie_breaking self) "random") eqn:Er.
    + apply String.eqb_eq in Er. right. left. split; [done|].
      destruct (random_choice m0 r) as [v|e]; [left|right]; by eexists.
    + apply String.eqb_neq in Er. right. right. split; [done|]. split; [by right|done].
Qed.

End MoreFitFacts.

(** X5. Under the [most_frequent] strategy, [fit] raises the [ValueError]
    for empty data exactly when no retained entry is an observed value: the
    data is empty, or every entry is masked, [None] or not-a-number. With a
    custom sentinel this includes data made of [None] entries only. *)
Theorem fit_empty_error_iff (self : CategoricalImputer) (X : list value) (r : nat) :
  strategy self = "most_frequent" →
  fit X r self = (Raise (ValueError empty_msg), self)
  ↔ Forall (λ x, isnull x = true) (retained self X).
Proof.
  intros Hs. rewrite fit_most_frequent by done.
  rewrite <- Series_mode_nil_iff.
  destruct (Series_mode (retained self X)) as [|m0 rest] eqn:E.
  { by split. }
  split; [|done]. intros Hfit. exfalso.
  destruct (fit_outcome_cons self m0 rest r)
    as [(_ & _ & H)|[(_ & [(v & _ & H)|(e & He & H)])|(_ & _ & H)]];
    rewrite H in Hfit; try discriminate Hfit.
  injection Hfit as ->. by destruct (random_choice_raises _ _ _ He).
Qed.

Lemma fit_empty_error_iff_witness :
  fit [VNone; VStr "?"; VNaN] 0 (imputer (VStr "?") "most_frequent" (VStr "?") "first" true)
  = (Raise (ValueError empty_msg),
     imputer (VStr "?") "most_frequent" (VStr "?") "first" true).
Proof.
  apply fit_empty_error_iff; [reflexivity|]. vm_compute. repeat constructor.
Defined.

(** X6. Under the [most_frequent] strategy, [fit] raises the [ValueError]
    for a tie exactly when two or more observed values tie for most frequent
    and the policy is [error]. *)
Theorem fit_tie_error_iff (self : CategoricalImputer) (X : list value) (r : nat) :
  strategy self = "most_frequent" →
  fit X r self = (Raise (ValueError tie_msg), self)
  ↔ tied (retained self X) ∧ tie_breaking self = "error".
Proof.
  intros Hs. rewrite fit_most_frequent by done. split.
  - intros Hfit.
    destruct (Series_mode (retained self X)) as [|m0 rest] eqn:E.
    { simpl in Hfit. injection Hfit as Hm. by destruct msgs_differ. }
    destruct (fit_outcome_cons self m0 rest r)
      as [(Hrest & Ht & _)|[(_ & [(v & _ & H)|(e & He & H)])|(_ & _ & H)]].
    + split; [|done]. apply tied_Series_mode. rewrite E.
      destruct rest; [done|simpl; lia].
    + rewrite H in Hfit. discriminate Hfit.
    + rewrite H in Hfit. injection Hfit as ->.
      by destruct (random_choice_raises _ _ _ He).
    + rewrite H in Hfit. discriminate Hfit.
  - intros [Htie Ht]. apply Series_mode_tied in Htie. unfold fit_outcome.
    destruct (Series_mode (retained self X)) as [|m0 rest]; [simpl in Htie; lia|].
    rewrite Ht. by rewrite (proj2 (Nat.ltb_lt 1 _)) by lia.
Qed.

Lemma fit_tie_error_iff_witness :
  tied (retained (imputer VNone "most_frequent" (VStr "?") "error" false)
                 [VInt 2; VNone; VInt 1; VInt 1; VInt 2])
  ∧ tie_breaking (imputer VNone "most_frequent" (VStr "?") "error" false) = "error".
Proof.
  apply (proj1 (fit_tie_error_iff (imputer VNone "most_frequent" (VStr "?") "error" false)
                  [VInt 2; VNone; VInt 1; VInt 1; VInt 2] 0 eq_refl)).
  reflexivity.
Defined.

(** X7. Under the [most_frequent] strategy with the [error] or [first]
    policy, a [fit] that returns has stored a value that is one of the most
    frequent observed values: an entry of the training data that is neither
    [None] nor not-a-number and that the mask does not mark. *)
Theorem fit_learns_observed_value (self self' : CategoricalImputer) (X : list value)
    (r : nat) :
  strategy self = "most_frequent" → tie_breaking self ≠ "random" →
  fit X r self = (Ok tt, self') →
  ∃ v, self' = with_fill_ self v
       ∧ most_frequent v (retained self X)
       ∧ v ∈ X ∧ isnull v = false
       ∧ _get_mask [v] (missing_values self) = [false].
Proof.
  intros Hs Ht Hfit. rewrite fit_most_frequent in Hfit by done.
  destruct (Series_mode (retained self X)) as [|m0 rest] eqn:E; [discriminate Hfit|].
  destruct (fit_outcome_cons self m0 rest r)
    as [(_ & _ & H)|[(Hr & _)|(_ & _ & H)]]; [|done|];
    rewrite H in Hfit; [discriminate Hfit|].
  injection Hfit as <-. exists m0. split; [done|].
  assert (most_frequent m0 (retained self X)) as Hm
    by (apply elem_of_Series_mode; rewrite E; left).
  split; [done|]. destruct Hm as (Hnull & Hin & _).
  rewrite retained_filter in Hin. apply list_elem_of_filter in Hin as [Hmask Hin].
  repeat split; [done..|]. rewrite get_mask_entries. simpl. by rewrite Hmask.
Qed.

Lemma fit_learns_observed_value_witness :
  ∃ v, with_fill_ (imputer (VStr "NaN") "most_frequent" (VStr "?") "first" true) (VStr "a")
       = with_fill_ (imputer (VStr "NaN") "most_frequent" (VStr "?") "first" true) v
       ∧ v ∈ [VStr "b"; VNone; VStr "a"; VStr "b"; VStr "a"].
Proof.
  destruct (fit_learns_observed_value
              (imputer (VStr "NaN") "most_frequent" (VStr "?") "first" true)
              (with_fill_ (imputer (VStr "NaN") "most_frequent" (VStr "?") "first" true)
                          (VStr "a"))
              [VStr "b"; VNone; VStr "a"; VStr "b"; VStr "a"] 0)
    as (v & Hv & _ & Hin & _); [reflexivity | discriminate | reflexivity |].
  exists v. split; [exact Hv | exact Hin].
Defined.

(** X8. Under the [constant] strategy [fit] never looks at the data: every
    training array gives the same outcome, no [ValueError] is ever raised, and
    with the [error] or [first] policy [fit] returns with [fill_] equal to
    [fill_value]. *)
Theorem fit_constant_ignores_data (self : CategoricalImputer) :
  strategy self = "constant" →
  (∀ X X' r, fit X r self = fit X' r self)
  ∧ (∀ X r msg, fit X r self ≠ (Raise (ValueError msg), self))
  ∧ (tie_breaking self ≠ "random" →
     ∀ X r, fit X r self = (Ok tt, with_fill_ self (fill_value self))).
Proof.
  intros Hs. split; [|split].
  - intros X X' r. by rewrite !fit_constant.
  - intros X r msg. rewrite fit_constant by done.
    destruct (fit_outcome_cons self (fill_value self) [] r)
      as [(Hrest & _)|[(_ & [(v & _ & H)|(e & He & H)])|(_ & _ & H)]];
      [done|..]; rewrite H; try discriminate.
    intros [= ->]. by destruct (random_choice_raises _ _ _ He).
  - intros Ht X r. by apply fit_constant_fill_value.
Qed.

Lemma fit_constant_ignores_data_witness :
  fit [] 0 (imputer (VStr "NaN") "constant" (VStr "missing") "error" true)
  = fit [VStr "x"; VStr "x"; VNone] 0
        (imputer (VStr "NaN") "constant" (VStr "missing") "error" true).
Proof.
  apply (proj1 (fit_constant_ignores_data
                  (imputer (VStr "NaN") "constant" (VStr "missing") "error" true) eq_refl)).
Defined.

(** X9. What [fit] does never depends on a value learned earlier: on an
    estimator that already holds a [fill_], [fit] returns or raises as it
    does on the same estimator without one, a returning call overwriting the
    old value and a raising call keeping it. *)
Theorem fit_forgets_earlier_fill (self : CategoricalImputer) (old : value)
    (X : list value) (r : nat) :
  fit X r (with_fill_ self old)
  = match fit X r self with
    | (Ok u, self') => (Ok u, self')
    | (Raise e, _) => (Raise e, with_fill_ self old)
    end.
Proof.
  assert (∀ modes, fit_outcome (with_fill_ self old) modes r
                   = match fit_outcome self modes r with
                     | (Ok u, self') => (Ok u, self')
                     | (Raise e, _) => (Raise e, with_fill_ self old)
                     end) as Hout.
  { intros [|m0 rest]; [done|]. unfold fit_outcome.
    change (tie_breaking (with_fill_ self old)) with (tie_breaking self).
    destruct (_ && _); [done|].
    destruct (String.eqb (tie_breaking self) "random"); [|done].
    by destruct (random_choice m0 r). }
  destruct (decide (strategy self = "most_frequent")) as [H1|H1].
  { rewrite !fit_most_frequent by done. apply Hout. }
  destruct (decide (strategy self = "constant")) as [H2|H2].
  { rewrite !fit_constant by done. apply Hout. }
  by rewrite !fit_other_strategy.
Qed.

(** X10. [fit] assigns [fill_] and nothing else: whether it returns or
    raises, the five options of the estimator are what they were. *)
Theorem fit_keeps_options (self : CategoricalImputer) (X : list value) (r : nat) :
  missing_values (fit X r self).2 = missing_values self
  ∧ strategy (fit X r self).2 = strategy self
  ∧ fill_value (fit X r self).2 = fill_value self
  ∧ tie_breaking (fit X r self).2 = tie_breaking self
  ∧ copy (fit X r self).2 = copy self.
Proof.
  pose proof (fit_frame self X r) as Hf.
  destruct (fit X r self) as [[[]|e] self']; simpl.
  - by destruct Hf as [v ->].
  - by subst.
Qed.

(** X11. [fit] raises [UnboundLocalError] exactly when [strategy] is
    neither of the two accepted names (the estimator was altered after its
    construction); no estimator that [__init__] returned can raise it. *)
Theorem fit_unbound_iff_unknown_strategy :
  (∀ self X r,
     fit X r self = (Raise UnboundLocalError, self) ↔ strategy self ∉ strategies)
  ∧ (∀ mv s fv tb cp self X r,
       __init__ mv s fv tb cp = Ok self →
       fit X r self ≠ (Raise UnboundLocalError, self)).
Proof.
  assert (∀ self X r,
     fit X r self = (Raise UnboundLocalError, self) ↔ strategy self ∉ strategies) as Hiff.
  { intros self X r.
    assert (∀ modes, fit_outcome self modes r ≠ (Raise UnboundLocalError, self)) as Hout.
    { intros [|m0 rest]; [discriminate|].
      destruct (fit_outcome_cons self m0 rest r)
        as [(_ & _ & H)|[(_ & [(v & _ & H)|(e & He & H)])|(_ & _ & H)]];
        rewrite H; try discriminate.
      intros [= ->]. by destruct (random_choice_raises _ _ _ He). }
    unfold strategies. rewrite !elem_of_cons, elem_of_nil. split.
    - intros Hfit [Hs|[Hs|[]]].
      + rewrite fit_constant in Hfit by done. by apply Hout in Hfit.
      + rewrite fit_most_frequent in Hfit by done. by apply Hout in Hfit.
    - intros Hs. apply fit_other_strategy; intros E; apply Hs; rewrite E; auto. }
  split; [exact Hiff|].
  intros mv s fv tb cp self X r Hinit Hfit. apply Hiff in Hfit. apply Hfit.
  unfold __init__ in Hinit.
  destruct (py_in s strategies) eqn:Es; [|discriminate Hinit].
  destruct (py_in tb tie_breaking_strategies); [|discriminate Hinit].
  injection Hinit as <-. by apply py_in_elem_of.
Qed.

Lemma fit_unbound_iff_unknown_strategy_witness :
  fit [VStr "a"] 0 (mkImputer (VStr "NaN") "median" (VStr "?") "error" true None)
  = (Raise UnboundLocalError,
     mkImputer (VStr "NaN") "median" (VStr "?") "error" true None).
Proof.
  apply (proj1 fit_unbound_iff_unknown_strategy).
  intros H. apply py_in_elem_of in H. discriminate H.
Defined.

(** X12. Under the [random] policy, with either strategy, a [fit] that
    returns has stored a string of exactly one character, a character of the
    first mode (of [fill_value] under the [constant] strategy); it stores
    the whole of it only when that is one character long. *)
Theorem fit_random_stores_one_character (self self' : CategoricalImputer)
    (X : list value) (r : nat) :
  tie_breaking self = "random" → fit X r self = (Ok tt, self') →
  ∃ s c,
    item0 (if String.eqb (strategy self) "most_frequent"
           then Series_mode (retained self X) else [fill_value self]) = Ok (VStr s)
    ∧ String.get (r mod String.length s) s = Some c
    ∧ self' = with_fill_ self (VStr (String c EmptyString)).
Proof.
  intros Ht Hfit.
  assert (∀ modes, fit_outcome self modes r = (Ok tt, self') →
            ∃ s c, item0 modes = Ok (VStr s)
                   ∧ String.get (r mod String.length s) s = Some c
                   ∧ self' = with_fill_ self (VStr (String c EmptyString))) as Hout.
  { intros [|m0 rest] H; [discriminate H|].
    destruct (fit_outcome_cons self m0 rest r)
      as [(_ & _ & H')|[(_ & [(v & Hv & H')|(e & _ & H')])|(Hn & _)]];
      [rewrite H' in H; discriminate H| |rewrite H' in H; discriminate H|done].
    rewrite H' in H. injection H as <-.
    apply random_choice_returns in Hv as (s & c & -> & -> & Hc). by exists s, c. }
  destruct (decide (strategy self = "most_frequent")) as [H1|H1].
  { rewrite fit_most_frequent in Hfit by done. rewrite H1. by apply Hout. }
  destruct (decide (strategy self = "constant")) as [H2|H2].
  { rewrite fit_constant in Hfit by done. rewrite H2. by apply Hout. }
  rewrite fit_other_strategy in Hfit by done. discriminate Hfit.
Qed.

Lemma fit_random_stores_one_character_witness :
  ∃ s c,
    item0 (Series_mode (retained (imputer (VStr "NaN") "most_frequent" (VStr "?")
                                          "random" true)
                                 [VStr "no"; VStr "yes"; VStr "yes"])) = Ok (VStr s)
    ∧ String.get (5 mod String.length s) s = Some c
    ∧ with_fill_ (imputer (VStr "NaN") "most_frequent" (VStr "?") "random" true) (VStr "s")
      = with_fill_ (imputer (VStr "NaN") "most_frequent" (VStr "?") "random" true)
                   (VStr (String c EmptyString)).
Proof.
  apply (fit_random_stores_one_character
           (imputer (VStr "NaN") "most_frequent" (VStr "?") "random" true)
           (with_fill_ (imputer (VStr "NaN") "most_frequent" (VStr "?") "random" true)
                       (VStr "s"))
           [VStr "no"; VStr "yes"; VStr "yes"] 5); reflexivity.
Defined.

Section MoreTransformFacts.

Lemma transform_returns (self : CategoricalImputer) (fill : value) (X : loc)
    (xs : list value) (h : store) :
  fill_ self = Some fill → h !! X = Some xs →
  ∃ Y h', transform self X h = (Ok Y, h')
          ∧ h' !! Y = Some (setitem_mask xs (_get_mask xs (missing_values self)) fill).
Proof.
  intros Hf Hx. destruct (copy self) eqn:Hc.
  - eexists _, _. split; [by apply (transform_on_copy _ fill)|].
    by rewrite lookup_insert_eq.
  - eexists _, _. split; [by apply (transform_in_place _ fill)|].
    by rewrite lookup_insert_eq.
Qed.

Lemma imputed_entries (mv fill : value) (xs : list value) :
  setitem_mask xs (_get_mask xs mv) fill
  = map (λ x, if entry_masked mv x then fill else x) xs.
Proof. rewrite get_mask_entries. apply setitem_mask_map. Qed.

Lemma imputed_twice (mv fill : value) (xs : list value) :
  let out := setitem_mask xs (_get_mask xs mv) fill in
  setitem_mask out (_get_mask out mv) fill = out.
Proof.
  cbv zeta. rewrite !imputed_entries, map_map. apply map_ext. intros x.
  destruct (entry_masked mv x) eqn:E; [|by rewrite E].
  by destruct (entry_masked mv fill).
Qed.

Lemma imputed_none_masked (mv fill : value) (xs : list value) :
  _get_mask [fill] mv = [false] →
  Forall (λ b, b = false) (_get_mask (setitem_mask xs (_get_mask xs mv) fill) mv).
Proof.
  rewrite (get_mask_entries [fill]). simpl. intros [= Hfill].
  rewrite imputed_entries, get_mask_entries, map_map.
  apply Forall_forall. intros b Hb. apply list_elem_of_fmap in Hb as (x & -> & _).
  by destruct (entry_masked mv x) eqn:E.
Qed.

End MoreTransformFacts.

(** X13. On a fitted estimator, [transform] returns an array of the length
    of its input whose entry at each position is [fill_] where the mask of
    the input is set and the input's own entry elsewhere. *)
Theorem transform_replaces_masked_entries (self : CategoricalImputer) (fill : value)
    (X : loc) (xs : list value) (h : store) :
  fill_ self = Some fill → h !! X = Some xs →
  ∃ Y h' out,
    transform self X h = (Ok Y, h')
    ∧ h' !! Y = Some out
    ∧ length out = length xs
    ∧ ∀ i, out !! i
           = (λ x, if masked_at (_get_mask xs (missing_values self)) i then fill else x)
             <$> xs !! i.
Proof.
  intros Hf Hx. destruct (transform_returns self fill X xs h Hf Hx) as (Y & h' & Ht & Hy).
  exists Y, h'. eexists. split; [done|]. split; [done|].
  split; [apply length_setitem_mask|]. intros i. apply lookup_setitem_mask.
Qed.

Lemma transform_replaces_masked_entries_witness :
  ∃ Y h' out,
    transform (mkImputer (VStr "?") "constant" (VStr "none") "error" true
                         (Some (VStr "none")))
              3%positive {[ 3%positive := [VStr "?"; VNone; VStr "x"; VStr "?"] ]}
    = (Ok Y, h')
    ∧ h' !! Y = Some out
    ∧ length out = 4
    ∧ out !! 0 = Some (VStr "none") ∧ out !! 1 = Some VNone.
Proof.
  destruct (transform_replaces_masked_entries
              (mkImputer (VStr "?") "constant" (VStr "none") "error" true
                         (Some (VStr "none")))
              (VStr "none") 3%positive [VStr "?"; VNone; VStr "x"; VStr "?"]
              {[ 3%positive := [VStr "?"; VNone; VStr "x"; VStr "?"] ]})
    as (Y & h' & out & Ht & Hy & Hlen & Hi); [reflexivity | reflexivity |].
  exists Y, h', out. split; [exact Ht|]. split; [exact Hy|]. split; [exact Hlen|].
  split; [exact (Hi 0) | exact (Hi 1)].
Defined.

(** X14. [transform] is idempotent: applied to the array it returned, it
    returns an array with the same contents, whatever [fill_] is. *)
Theorem transform_idempotent (self : CategoricalImputer) (fill : value) (X Y : loc)
    (xs : list value) (h h' : store) :
  fill_ self = Some fill → h !! X = Some xs →
  transform self X h = (Ok Y, h') →
  ∃ Y' h'', transform self Y h' = (Ok Y', h'') ∧ h'' !! Y' = h' !! Y.
Proof.
  intros Hf Hx Ht.
  destruct (transform_returns self fill X xs h Hf Hx) as (Y0 & h0 & Ht0 & Hy).
  rewrite Ht in Ht0. injection Ht0 as <- <-.
  destruct (transform_returns self fill Y _ h' Hf Hy) as (Y' & h'' & Ht' & Hy').
  exists Y', h''. split; [done|]. rewrite Hy', Hy. f_equal. apply imputed_twice.
Qed.

Lemma transform_idempotent_witness :
  ∃ Y' h'',
    transform (mkImputer (VStr "?") "constant" (VStr "?") "error" false (Some (VStr "?")))
              1%positive {[ 1%positive := [VStr "a"; VStr "?"] ]}
    = (Ok Y', h'')
    ∧ h'' !! Y' = ({[ 1%positive := [VStr "a"; VStr "?"] ]} : store) !! 1%positive.
Proof.
  apply (transform_idempotent
           (mkImputer (VStr "?") "constant" (VStr "?") "error" false (Some (VStr "?")))
           (VStr "?") 1%positive 1%positive [VStr "a"; VStr "?"]
           {[ 1%positive := [VStr "a"; VStr "?"] ]}
           {[ 1%positive := [VStr "a"; VStr "?"] ]}); [reflexivity | reflexivity |].
  vm_compute. reflexivity.
Defined.

(** X15. When [fill_] is not itself a value the mask marks, the array
    [transform] returns has no masked entry left. *)
Theorem transform_leaves_none_masked (self : CategoricalImputer) (fill : value)
    (X Y : loc) (xs : list value) (h h' : store) :
  fill_ self = Some fill → _get_mask [fill] (missing_values self) = [false] →
  h !! X = Some xs → transform self X h = (Ok Y, h') →
  ∃ out, h' !! Y = Some out
         ∧ Forall (λ b, b = false) (_get_mask out (missing_values self)).
Proof.
  intros Hf Hfill Hx Ht.
  destruct (transform_returns self fill X xs h Hf Hx) as (Y0 & h0 & Ht0 & Hy).
  rewrite Ht in Ht0. injection Ht0 as <- <-.
  eexists. split; [done|]. by apply imputed_none_masked.
Qed.

Lemma transform_leaves_none_masked_witness :
  ∃ out,
    (<[ 1%positive := [VStr "a"; VStr "b"; VStr "b"] ]>
       ({[ 1%positive := [VStr "a"; VNone; VStr "b"] ]} : store)) !! 1%positive = Some out
    ∧ Forall (λ b, b = false) (_get_mask out (VStr "NaN")).
Proof.
  apply (transform_leaves_none_masked
           (mkImputer (VStr "NaN") "most_frequent" (VStr "?") "error" false
                      (Some (VStr "b")))
           (VStr "b") 1%positive 1%positive [VStr "a"; VNone; VStr "b"]
           {[ 1%positive := [VStr "a"; VNone; VStr "b"] ]});
    [reflexivity | reflexivity | reflexivity |].
  vm_compute. reflexivity.
Defined.

(** X16. After a [fit] that returned under the [most_frequent] strategy
    with the [error] or [first] policy, [transform] of any array returns an
    array with no masked entry left: the learned value is never one the mask
    marks. *)
Theorem fit_then_transform_leaves_none_masked (self self' : CategoricalImputer)
    (T : list value) (r : nat) (X Y : loc) (xs : list value) (h h' : store) :
  strategy self = "most_frequent" → tie_breaking self ≠ "random" →
  fit T r self = (Ok tt, self') →
  h !! X = Some xs → transform self' X h = (Ok Y, h') →
  ∃ out, h' !! Y = Some out
         ∧ Forall (λ b, b = false) (_get_mask out (missing_values self)).
Proof.
  intros Hs Hp Hfit Hx Ht.
  rewrite fit_most_frequent in Hfit by done.
  destruct (Series_mode (retained self T)) as [|m0 rest] eqn:E; [discriminate Hfit|].
  destruct (fit_outcome_cons self m0 rest r)
    as [(_ & _ & H)|[(Hr & _)|(_ & _ & H)]]; [|done|];
    rewrite H in Hfit; [discriminate Hfit|].
  injection Hfit as <-.
  assert (most_frequent m0 (retained self T)) as (_ & Hin & _)
    by (apply elem_of_Series_mode; rewrite E; left).
  rewrite retained_filter in Hin. apply list_elem_of_filter in Hin as [Hmask _].
  destruct (transform_returns (with_fill_ self m0) m0 X xs h eq_refl Hx)
    as (Y0 & h0 & Ht0 & Hy).
  rewrite Ht in Ht0. injection Ht0 as <- <-.
  eexists. split; [exact Hy|]. apply imputed_none_masked.
  rewrite get_mask_entries. simpl. by rewrite Hmask.
Qed.

Lemma fit_then_transform_leaves_none_masked_witness :
  ∃ out,
    (<[ 1%positive := [VStr "b"; VStr "c"] ]>
       ({[ 1%positive := [VNaN; VStr "c"] ]} : store)) !! 1%positive = Some out
    ∧ Forall (λ b, b = false) (_get_mask out (VStr "NaN")).
Proof.
  apply (fit_then_transform_leaves_none_masked
           (imputer (VStr "NaN") "most_frequent" (VStr "?") "error" false)
           (with_fill_ (imputer (VStr "NaN") "most_frequent" (VStr "?") "error" false)
                       (VStr "b"))
           [VStr "a"; VStr "b"; VNone; VStr "b"] 0 1%positive 1%positive
           [VNaN; VStr "c"] {[ 1%positive := [VNaN; VStr "c"] ]});
    [reflexivity | discriminate | reflexivity | reflexivity |].
  vm_compute. reflexivity.
Defined.

(** X17. Under the [most_frequent] strategy with the [error] or [first]
    policy, on data with a unique mode, [fit] returns and [transform] of the
    same data then returns an array of the same length with the mode at
    every masked position and the data's own entry elsewhere. *)
Theorem fit_transform_fills_unique_mode (self : CategoricalImputer) (S : list value)
    (r : nat) (v : value) (X : loc) (h : store) :
  strategy self = "most_frequent" → tie_breaking self ≠ "random" →
  unique_mode v (retained self S) → h !! X = Some S →
  ∃ self' Y h' out,
    fit S r self = (Ok tt, self')
    ∧ transform self' X h = (Ok Y, h')
    ∧ h' !! Y = Some out
    ∧ length out = length S
    ∧ ∀ i, out !! i
           = (λ x, if masked_at (_get_mask S (missing_values self)) i then v else x)
             <$> S !! i.
Proof. apply fit_transform_unique_mode. Qed.

Lemma fit_transform_fills_unique_mode_witness :
  ∃ self' Y h' out,
    fit [VStr "ab"; VNone; VStr "ab"; VStr "c"] 0
        (imputer (VStr "NaN") "most_frequent" (VStr "?") "error" true)
    = (Ok tt, self')
    ∧ transform self' 1%positive {[ 1%positive := [VStr "ab"; VNone; VStr "ab"; VStr "c"] ]}
      = (Ok Y, h')
    ∧ h' !! Y = Some out
    ∧ out !! 1 = Some (VStr "ab").
Proof.
  destruct (fit_transform_fills_unique_mode
              (imputer (VStr "NaN") "most_frequent" (VStr "?") "error" true)
              [VStr "ab"; VNone; VStr "ab"; VStr "c"] 0 (VStr "ab") 1%positive
              {[ 1%positive := [VStr "ab"; VNone; VStr "ab"; VStr "c"] ]})
    as (self' & Y & h' & out & Hfit & Ht & Hy & _ & Hi);
    [reflexivity | discriminate | | reflexivity |].
  - apply unique_mode_Series_mode. reflexivity.
  - exists self', Y, h', out. split; [exact Hfit|]. split; [exact Ht|].
    split; [exact Hy|]. exact (Hi 1).
Defined.
